(** * HttpHeaders: the lazily initialised header collection of
      packages/common/http/src/headers.ts

    The class is embedded over an explicit store.  JavaScript arrays of
    strings are store cells addressed by a reference, because the class
    shares them between instances ([copyFrom] copies references) and
    mutates them in place ([push]).  Instances of the class are store
    cells as well, because [init] mutates an instance the first time it is
    read.  The two private [Map]s of an instance are never shared between
    instances, so they are kept inside the instance as insertion-ordered
    association lists. *)

From Stdlib Require Import ZArith String Ascii Bool Lia.
From stdpp Require Import base option list strings.

Local Open Scope string_scope.
Local Open Scope list_scope.
Local Open Scope nat_scope.

(** ** JavaScript strings

    A string is a sequence of code units; the model covers the strings
    whose code units are below 256 (Latin-1), one [ascii] per unit. *)
Module JsString.
Local Open Scope Z_scope.

Definition code (c : ascii) : nat := nat_of_ascii c.

(** Code units with a distinct lower-case form: A-Z, and the Latin-1
    capitals U+00C0..U+00DE without the multiplication sign U+00D7. *)
Definition is_upper (c : ascii) : bool :=
  let n := code c in
  ((65 <=? n)%nat && (n <=? 90)%nat)
  || ((192 <=? n)%nat && (n <=? 222)%nat && negb (n =? 215)%nat).

Definition lower_char (c : ascii) : ascii :=
  if is_upper c then ascii_of_nat (code c + 32) else c.

(** [String.prototype.toLowerCase]. *)
Fixpoint toLowerCase (s : string) : string :=
  match s with
  | EmptyString => EmptyString
  | String c s' => String (lower_char c) (toLowerCase s')
  end.

(** White space and line terminators removed by [trim]: TAB, LF, VT, FF,
    CR, SPACE and NBSP. *)
Definition is_space (c : ascii) : bool :=
  let n := code c in
  ((9 <=? n)%nat && (n <=? 13)%nat) || (n =? 32)%nat || (n =? 160)%nat.

Fixpoint trimStart (s : string) : string :=
  match s with
  | EmptyString => EmptyString
  | String c s' => if is_space c then trimStart s' else s
  end.

Fixpoint trimEnd (s : string) : string :=
  match s with
  | EmptyString => EmptyString
  | String c s' =>
      match trimEnd s' with
      | EmptyString => if is_space c then EmptyString else String c EmptyString
      | t => String c t
      end
  end.

(** [String.prototype.trim]. *)
Definition trim (s : string) : string := trimEnd (trimStart s).

Fixpoint indexOf_from (s pat : string) (i : Z) : Z :=
  if String.prefix pat s then i
  else match s with
       | EmptyString => -1
       | String _ s' => indexOf_from s' pat (i + 1)
       end.

(** [s.indexOf(pat)]: position of the first occurrence of [pat] in [s],
    or -1. *)
Definition indexOf (s pat : string) : Z := indexOf_from s pat 0.

Definition clamp (len i : Z) : Z :=
  if i <? 0 then Z.max (len + i) 0 else Z.min i len.

(** [s.slice(start, end)], [end] left out when [None]. *)
Definition slice (s : string) (start : Z) (end_ : option Z) : string :=
  let len := Z.of_nat (String.length s) in
  let from := clamp len start in
  let to := match end_ with Some e => clamp len e | None => len end in
  String.substring (Z.to_nat from) (Z.to_nat (to - from)) s.

(** [s.split(sep)] for a separator of one code unit. *)
Fixpoint split (s : string) (sep : ascii) : list string :=
  match s with
  | EmptyString => [EmptyString]
  | String c s' =>
      if Ascii.eqb c sep then EmptyString :: split s' sep
      else match split s' sep with
           | l :: ls => String c l :: ls
           | [] => [String c EmptyString]
           end
  end.

Definition LF : ascii := ascii_of_nat 10.

End JsString.

(** ** JavaScript [Map] with string keys

    Iteration follows insertion order; [set] on a present key keeps the
    key's position. *)
Module JsMap.
Section Ops.
Context {V : Type}.

Definition t := list (string * V).

Definition empty : t := [].

Fixpoint get (m : t) (k : string) : option V :=
  match m with
  | [] => None
  | (k', v) :: m' => if String.eqb k' k then Some v else get m' k
  end.

Definition has (m : t) (k : string) : bool :=
  match get m k with Some _ => true | None => false end.

Fixpoint set (m : t) (k : string) (v : V) : t :=
  match m with
  | [] => [(k, v)]
  | (k', v') :: m' =>
      if String.eqb k' k then (k', v) :: m' else (k', v') :: set m' k v
  end.

Fixpoint delete (m : t) (k : string) : t :=
  match m with
  | [] => []
  | (k', v') :: m' =>
      if String.eqb k' k then delete m' k else (k', v') :: delete m' k
  end.

Definition keys (m : t) : list string := map fst m.
Definition values (m : t) : list V := map snd m.
End Ops.
Arguments t : clear implicits.
End JsMap.

(** ** The store *)

(** Reference to a JavaScript array of strings. *)
Abbreviation aref := nat.
(** Reference to an [HttpHeaders] instance. *)
Abbreviation oref := nat.

(** The array cells. *)
Abbreviation Arrays := (list (list string)).

(** A new array with the given elements. *)
Definition alloc (A : Arrays) (l : list string) : aref * Arrays :=
  (length A, A ++ [l]).

(** [r.push(...items)]. *)
Definition push (A : Arrays) (r : aref) (items : list string) : option Arrays :=
  l ← A !! r; Some (<[r := l ++ items]> A).

(** A value of type [string|string[]]. *)
Inductive Value :=
| VStr (s : string)
| VArr (r : aref).

Inductive Op := OpA | OpS | OpD.

#[global] Instance Op_eq_dec : EqDecision Op.
Proof. solve_decision. Defined.

(** [interface Update]. *)
Record Update := mkUpdate {
  name : string;
  value : option Value;
  op : Op
}.

(** The argument of the constructor, when it is an object: its own
    enumerable properties in [Object.keys] order. *)
Definition RecordInput := list (string * Value).

(** The three shapes of the field [lazyInit]: null (or never assigned), a
    parent instance, or one of the two closures the constructor builds,
    each with the variable [headers] it captures. *)
Inductive LazyInit :=
| LNull
| LHeaders (other : oref)
| LString (raw : string)
| LRecord (rec : RecordInput).

(** [class HttpHeaders]; [headers] is [None] while the field is still
    unassigned. *)
Record HttpHeaders := mkHttpHeaders {
  headers : option (JsMap.t aref);
  normalizedNames : JsMap.t string;
  lazyInit : LazyInit;
  lazyUpdate : option (list Update)
}.

Definition with_headers (m : JsMap.t aref) (this : HttpHeaders) : HttpHeaders :=
  mkHttpHeaders (Some m) (normalizedNames this) (lazyInit this) (lazyUpdate this).

Definition with_normalizedNames (n : JsMap.t string) (this : HttpHeaders) : HttpHeaders :=
  mkHttpHeaders (headers this) n (lazyInit this) (lazyUpdate this).

Definition with_lazyInit (li : LazyInit) (this : HttpHeaders) : HttpHeaders :=
  mkHttpHeaders (headers this) (normalizedNames this) li (lazyUpdate this).

Definition with_lazyUpdate (lu : option (list Update)) (this : HttpHeaders) : HttpHeaders :=
  mkHttpHeaders (headers this) (normalizedNames this) (lazyInit this) lu.

Record Heap := mkHeap {
  arrays : Arrays;
  objects : list HttpHeaders
}.

Definition empty_heap : Heap := mkHeap [] [].

(** ** The class *)

Import JsString.

(** [xs.forEach(x => body)] for a body that may throw: the iteration stops
    at the first failure. *)
Fixpoint forEachM {X S : Type} (body : X → S → option S) (xs : list X) (s : S)
  : option S :=
  match xs with
  | [] => Some s
  | x :: xs' => s' ← body x s; forEachM body xs' s'
  end.

(** What a method sees and may change without reaching another instance:
    the fields of [this] and the array cells.  A method returns [None]
    where the JavaScript code throws (a property read on [undefined]) or
    where a value that the source asserts to be defined with [!] is not. *)
Definition Local : Type := HttpHeaders * Arrays.

(** [[value]] when the value is a string, the array itself otherwise. *)
Definition toArray (v : Value) (A : Arrays) : aref * Arrays :=
  match v with
  | VStr s => alloc A [s]
  | VArr r => (r, A)
  end.

(** [Array.prototype.indexOf]. *)
Fixpoint array_indexOf_from (l : list string) (x : string) (i : Z) : Z :=
  match l with
  | [] => (-1)%Z
  | y :: l' => if String.eqb y x then i else array_indexOf_from l' x (i + 1)%Z
  end.

Definition array_indexOf (l : list string) (x : string) : Z :=
  array_indexOf_from l x 0%Z.

Definition maybeSetNormalizedName (nm lcName : string) (this : HttpHeaders)
  : HttpHeaders :=
  if negb (JsMap.has (normalizedNames this) lcName)
  then with_normalizedNames (JsMap.set (normalizedNames this) lcName nm) this
  else this.

(** The body of the loop over the lines of a raw header block
    (constructor, string case). *)
Definition parseLine (line : string) (st : Local) : option Local :=
  let '(this, A) := st in
  let index := indexOf line ":" in
  if (0 <? index)%Z then
    let nm := slice line 0%Z (Some index) in
    let key := toLowerCase nm in
    let val := trim (slice line (index + 1)%Z None) in
    let this := maybeSetNormalizedName nm key this in
    m ← headers this;
    match JsMap.get m key with
    | Some r => A' ← push A r [val]; Some (this, A')
    | None =>
        let '(r, A') := alloc A [val] in
        Some (with_headers (JsMap.set m key r) this, A')
    end
  else Some (this, A).

(** The closure stored in [lazyInit] for a raw header block. *)
Definition lazyInit_string (raw : string) (st : Local) : option Local :=
  let '(this, A) := st in
  forEachM parseLine (split raw LF) (with_headers JsMap.empty this, A).

(** The body of the loop over the properties of a record
    (constructor, object case). *)
Definition recordEntry (nv : string * Value) (st : Local) : option Local :=
  let '(this, A) := st in
  let '(nm, values) := nv in
  let key := toLowerCase nm in
  let '(values, A) := toArray values A in
  l ← A !! values;
  if (0 <? length l)%nat then
    m ← headers this;
    Some (maybeSetNormalizedName nm key (with_headers (JsMap.set m key values) this), A)
  else Some (this, A).

(** The closure stored in [lazyInit] for a record. *)
Definition lazyInit_record (rec : RecordInput) (st : Local) : option Local :=
  let '(this, A) := st in
  forEachM recordEntry rec (with_headers JsMap.empty this, A).

(** The filter of a delete when [toDelete] is truthy; [None] for
    [!toDelete], which holds for [undefined] and for the empty string. *)
Definition truthy (v : option Value) : option Value :=
  match v with
  | None => None
  | Some (VStr s) => if String.eqb s "" then None else Some (VStr s)
  | Some (VArr r) => Some (VArr r)
  end.

(** [value => toDelete.indexOf(value) === -1]; [indexOf] is the string
    method when [toDelete] is a string and the array method when it is an
    array. *)
Definition keepValue (toDelete : Value) (A : Arrays) : option (string → bool) :=
  match toDelete with
  | VStr s => Some (λ v, (indexOf s v =? -1)%Z)
  | VArr r => l ← A !! r; Some (λ v, (array_indexOf l v =? -1)%Z)
  end.

Definition applyUpdate (update : Update) (st : Local) : option Local :=
  let '(this, A) := st in
  let key := toLowerCase (name update) in
  match op update with
  | OpA | OpS =>
      v ← value update;
      let '(val, A) := toArray v A in
      items ← A !! val;
      if (length items =? 0)%nat then Some (this, A)
      else
        let this := maybeSetNormalizedName (name update) key this in
        m ← headers this;
        let existing :=
          match op update with OpA => JsMap.get m key | _ => None end in
        let '(base, A) :=
          match existing with Some b => (b, A) | None => alloc A [] end in
        A ← push A base items;
        Some (with_headers (JsMap.set m key base) this, A)
  | OpD =>
      m ← headers this;
      match truthy (value update) with
      | None =>
          Some (with_normalizedNames (JsMap.delete (normalizedNames this) key)
                  (with_headers (JsMap.delete m key) this), A)
      | Some toDelete =>
          match JsMap.get m key with
          | None => Some (this, A)
          | Some existing =>
              l ← A !! existing;
              keep ← keepValue toDelete A;
              let kept := List.filter keep l in
              let '(existing, A) := alloc A kept in
              if (length kept =? 0)%nat then
                Some (with_normalizedNames (JsMap.delete (normalizedNames this) key)
                        (with_headers (JsMap.delete m key) this), A)
              else Some (with_headers (JsMap.set m key existing) this, A)
          end
      end
  end.

(** Run a method of the instance [this] against the store. *)
Definition on_this (this : oref) (body : Local → option Local) (σ : Heap)
  : option Heap :=
  h ← objects σ !! this;
  '(h', A') ← body (h, arrays σ);
  Some (mkHeap A' (<[this := h']> (objects σ))).

(** The body of the loop of [copyFrom], with the instance [other] as the
    loop reads it. *)
Definition copyEntry (other : HttpHeaders) (key : string) (st : Local)
  : option Local :=
  let '(this, A) := st in
  om ← headers other;
  m ← headers this;
  r ← JsMap.get om key;
  n ← JsMap.get (normalizedNames other) key;
  Some (with_normalizedNames (JsMap.set (normalizedNames this) key n)
          (with_headers (JsMap.set m key r) this), A).

(** [copyFrom], over the [init] it calls on the other instance. *)
Definition copyFrom (init_ : oref → Heap → option Heap) (this other : oref)
  (σ : Heap) : option Heap :=
  σ ← init_ other σ;
  o ← objects σ !! other;
  om ← headers o;
  on_this this (forEachM (copyEntry o) (JsMap.keys om)) σ.

(** The end of [init], once the maps of [this] are filled:
    [this.lazyInit = null], then the queued updates in order, then
    [this.lazyUpdate = null]. *)
Definition finishInit (st : Local) : option Local :=
  let '(this, A) := st in
  let this := with_lazyInit LNull this in
  match lazyUpdate this with
  | Some updates =>
      '(this, A) ← forEachM applyUpdate updates (this, A);
      Some (with_lazyUpdate None this, A)
  | None => Some (this, A)
  end.

(** [init]; the fuel bounds the depth of the chain of parents that
    [copyFrom] follows. *)
Fixpoint init (fuel : nat) (this : oref) (σ : Heap) : option Heap :=
  match fuel with
  | O => None
  | S fuel' =>
      h ← objects σ !! this;
      match lazyInit h with
      | LNull => Some σ
      | LHeaders other =>
          σ ← copyFrom (init fuel') this other σ; on_this this finishInit σ
      | LString raw =>
          σ ← on_this this (lazyInit_string raw) σ; on_this this finishInit σ
      | LRecord rec =>
          σ ← on_this this (lazyInit_record rec) σ; on_this this finishInit σ
      end
  end.

(** [this.init()] as the public methods call it: a chain of parents is
    never longer than the number of instances. *)
Definition init_this (this : oref) (σ : Heap) : option Heap :=
  init (S (length (objects σ))) this σ.

(** The argument of the constructor. *)
Inductive Input :=
| IString (raw : string)
| IRecord (rec : RecordInput).

(** The fields the constructor leaves; [!headers] holds for a missing
    argument and for the empty string. *)
Definition construct (input : option Input) : HttpHeaders :=
  match input with
  | None => mkHttpHeaders (Some JsMap.empty) JsMap.empty LNull None
  | Some (IString raw) =>
      if String.eqb raw ""
      then mkHttpHeaders (Some JsMap.empty) JsMap.empty LNull None
      else mkHttpHeaders None JsMap.empty (LString raw) None
  | Some (IRecord rec) => mkHttpHeaders None JsMap.empty (LRecord rec) None
  end.

(** [new HttpHeaders(headers)]. *)
Definition new_HttpHeaders (input : option Input) (σ : Heap) : oref * Heap :=
  (length (objects σ), mkHeap (arrays σ) (objects σ ++ [construct input])).

Definition has (this : oref) (nm : string) (σ : Heap) : option (bool * Heap) :=
  σ ← init_this this σ;
  h ← objects σ !! this;
  m ← headers h;
  Some (JsMap.has m (toLowerCase nm), σ).

Definition get (this : oref) (nm : string) (σ : Heap)
  : option (option string * Heap) :=
  σ ← init_this this σ;
  h ← objects σ !! this;
  m ← headers h;
  match JsMap.get m (toLowerCase nm) with
  | Some values =>
      l ← arrays σ !! values;
      Some (if (0 <? length l)%nat then l !! 0%nat else None, σ)
  | None => Some (None, σ)
  end.

(** [keys]; the result is a new array, given here by its elements. *)
Definition keys (this : oref) (σ : Heap) : option (list string * Heap) :=
  σ ← init_this this σ;
  h ← objects σ !! this;
  Some (JsMap.values (normalizedNames h), σ).

(** [getAll]; the result is the array the instance holds, not a copy. *)
Definition getAll (this : oref) (nm : string) (σ : Heap)
  : option (option aref * Heap) :=
  σ ← init_this this σ;
  h ← objects σ !! this;
  m ← headers h;
  Some (JsMap.get m (toLowerCase nm), σ).

Definition clone (this : oref) (update : Update) (σ : Heap)
  : option (oref * Heap) :=
  h ← objects σ !! this;
  let clone_ := construct None in
  let li := match lazyInit h with
            | LHeaders parent => LHeaders parent
            | _ => LHeaders this
            end in
  let lu := Some (default [] (lazyUpdate h) ++ [update]) in
  Some (length (objects σ),
        mkHeap (arrays σ)
          (objects σ ++ [with_lazyUpdate lu (with_lazyInit li clone_)])).

Definition append (this : oref) (nm : string) (v : Value) : Heap → option (oref * Heap) :=
  clone this (mkUpdate nm (Some v) OpA).

Definition set (this : oref) (nm : string) (v : Value) : Heap → option (oref * Heap) :=
  clone this (mkUpdate nm (Some v) OpS).

Definition delete (this : oref) (nm : string) (v : option Value)
  : Heap → option (oref * Heap) :=
  clone this (mkUpdate nm v OpD).

(** [forEach(fn)]: the pairs [fn] is called with, in call order. *)
Definition forEach (this : oref) (σ : Heap)
  : option (list (string * aref) * Heap) :=
  σ ← init_this this σ;
  h ← objects σ !! this;
  m ← headers h;
  calls ← mapM (λ key, n ← JsMap.get (normalizedNames h) key;
                        r ← JsMap.get m key;
                        Some (n, r))
                (JsMap.keys (normalizedNames h));
  Some (calls, σ).

(** The elements of the array a read returned. *)
Definition elements (σ : Heap) (r : option aref) : option (list string) :=
  match r with
  | Some r => arrays σ !! r
  | None => None
  end.

(** ** Reads as a caller observes them: the value returned, arrays by
    their elements. *)

Definition read_has (this : oref) (nm : string) (σ : Heap) : option bool :=
  fst <$> has this nm σ.

Definition read_get (this : oref) (nm : string) (σ : Heap)
  : option (option string) :=
  fst <$> get this nm σ.

Definition read_keys (this : oref) (σ : Heap) : option (list string) :=
  fst <$> keys this σ.

Definition read_getAll (this : oref) (nm : string) (σ : Heap)
  : option (option (list string)) :=
  '(r, σ') ← getAll this nm σ;
  match r with
  | Some r => l ← arrays σ' !! r; Some (Some l)
  | None => Some None
  end.

Definition read_forEach (this : oref) (σ : Heap)
  : option (list (string * list string)) :=
  '(calls, σ') ← forEach this σ;
  mapM (λ c : string * aref, l ← arrays σ' !! c.2; Some (c.1, l)) calls.

(** The strings a value stands for: a string counts as a one-element
    list. *)
Definition valueItems (A : Arrays) (v : Value) : option (list string) :=
  match v with
  | VStr s => Some [s]
  | VArr r => A !! r
  end.

(** ** Programs over the class: what a caller can do

    A caller builds arrays, constructs collections and calls the public
    methods, with any reference it may hold: an array it built or one a
    [getAll] or [forEach] handed out.  A caller does not write to an
    array itself. *)

Inductive Call :=
| CArray (l : list string)
| CNew (input : option Input)
| CHas (h : oref) (nm : string)
| CGet (h : oref) (nm : string)
| CKeys (h : oref)
| CGetAll (h : oref) (nm : string)
| CForEach (h : oref)
| CAppend (h : oref) (nm : string) (v : Value)
| CSet (h : oref) (nm : string) (v : Value)
| CDelete (h : oref) (nm : string) (v : option Value).

Inductive Result :=
| RArray (r : aref)
| RObject (o : oref)
| RBool (b : bool)
| RString (s : option string)
| RStrings (l : list string)
| RArrayOpt (r : option aref)
| RCalls (l : list (string * aref)).

Definition exec (c : Call) (σ : Heap) : option (Result * Heap) :=
  match c with
  | CArray l =>
      let '(r, A) := alloc (arrays σ) l in Some (RArray r, mkHeap A (objects σ))
  | CNew input =>
      let '(o, σ') := new_HttpHeaders input σ in Some (RObject o, σ')
  | CHas h nm => '(b, σ') ← has h nm σ; Some (RBool b, σ')
  | CGet h nm => '(s, σ') ← get h nm σ; Some (RString s, σ')
  | CKeys h => '(l, σ') ← keys h σ; Some (RStrings l, σ')
  | CGetAll h nm => '(r, σ') ← getAll h nm σ; Some (RArrayOpt r, σ')
  | CForEach h => '(l, σ') ← forEach h σ; Some (RCalls l, σ')
  | CAppend h nm v => '(o, σ') ← append h nm v σ; Some (RObject o, σ')
  | CSet h nm v => '(o, σ') ← set h nm v σ; Some (RObject o, σ')
  | CDelete h nm v => '(o, σ') ← delete h nm v σ; Some (RObject o, σ')
  end.

(** The references of a call exist in the store. *)
Definition value_ok (A : Arrays) (v : Value) : Prop :=
  match v with
  | VStr _ => True
  | VArr r => r < length A
  end.

Definition record_ok (A : Arrays) (rec : RecordInput) : Prop :=
  Forall (λ nv, value_ok A nv.2) rec.

Definition call_ok (σ : Heap) (c : Call) : Prop :=
  match c with
  | CArray _ => True
  | CNew (Some (IRecord rec)) => record_ok (arrays σ) rec
  | CNew _ => True
  | CHas h _ | CGet h _ | CKeys h | CGetAll h _ | CForEach h =>
      h < length (objects σ)
  | CAppend h _ v | CSet h _ v => h < length (objects σ) ∧ value_ok (arrays σ) v
  | CDelete h _ v =>
      h < length (objects σ) ∧ from_option (value_ok (arrays σ)) True v
  end.

(** The stores a program reaches from the empty store. *)
Inductive reachable : Heap → Prop :=
| reachable_empty : reachable empty_heap
| reachable_step σ c r σ' :
    reachable σ → call_ok σ c → exec c σ = Some (r, σ') → reachable σ'.

(** A program: calls in order, each run on the store the previous one
    left.  [run] stops at a call that fails. *)
Fixpoint run (cs : list Call) (σ : Heap) : Heap :=
  match cs with
  | [] => σ
  | c :: cs' =>
      match exec c σ with
      | Some (_, σ') => run cs' σ'
      | None => σ
      end
  end.

(** Every call of the program uses references that exist when it runs. *)
Fixpoint run_ok (cs : list Call) (σ : Heap) : Prop :=
  match cs with
  | [] => True
  | c :: cs' =>
      call_ok σ c ∧
      match exec c σ with
      | Some (_, σ') => run_ok cs' σ'
      | None => False
      end
  end.

(** A program for the examples: build {A: ["1", "2"]}, delete "1" from
    "A", read; delete "2" as well, read. *)
Definition example_calls : list Call :=
  [CArray ["1"; "2"];
   CNew (Some (IRecord [("A", VArr 0)]));
   CDelete 0 "A" (Some (VStr "1"));
   CGetAll 1 "a";
   CDelete 1 "A" (Some (VStr "2"));
   CHas 2 "a"].

(** ** Invariants of the store *)

(** Arrays are never removed and never shrink: a cell keeps its elements
    as a prefix, and an empty array is never pushed to. *)
Definition grows (A A' : Arrays) : Prop :=
  length A ≤ length A' ∧
  ∀ r l, A !! r = Some l →
         ∃ l', A' !! r = Some (l ++ l') ∧ (l = [] → l' = []).

(** The two maps of an instance: same keys in the same order, no key
    twice, every value list a non-empty array of the store. *)
Definition maps_ok (A : Arrays) (m : JsMap.t aref) (n : JsMap.t string) : Prop :=
  JsMap.keys m = JsMap.keys n ∧
  NoDup (JsMap.keys m) ∧
  Forall (λ kr, ∃ l, A !! kr.2 = Some l ∧ l ≠ []) m.

Definition update_ok (A : Arrays) (u : Update) : Prop :=
  match op u with
  | OpD => from_option (value_ok A) True (value u)
  | _ => ∃ v, value u = Some v ∧ value_ok A v
  end.

Definition updates_ok (A : Arrays) (lu : option (list Update)) : Prop :=
  Forall (update_ok A) (default [] lu).

(** The state of the instance at reference [o]. *)
Definition obj_ok (A : Arrays) (o : oref) (h : HttpHeaders) : Prop :=
  match lazyInit h with
  | LNull =>
      lazyUpdate h = None ∧
      ∃ m, headers h = Some m ∧ maps_ok A m (normalizedNames h)
  | LHeaders parent =>
      parent < o ∧ headers h = Some [] ∧ normalizedNames h = [] ∧
      updates_ok A (lazyUpdate h)
  | LString raw => lazyUpdate h = None ∧ normalizedNames h = []
  | LRecord rec =>
      lazyUpdate h = None ∧ normalizedNames h = [] ∧ record_ok A rec
  end.

Definition wf (σ : Heap) : Prop :=
  ∀ o h, objects σ !! o = Some h → obj_ok (arrays σ) o h.

(** Two instances with the same maps. *)
Definition same_maps (h1 h2 : HttpHeaders) : Prop :=
  headers h1 = headers h2 ∧ normalizedNames h1 = normalizedNames h2.

(** What a method of an initialised instance keeps: the maps of [this]
    are well formed over the array cells. *)
Definition local_ok (st : Local) : Prop :=
  ∃ m, headers st.1 = Some m ∧ maps_ok st.2 m (normalizedNames st.1).

(** The two lazy fields are the same in both instances. *)
Definition same_lazy (h1 h2 : HttpHeaders) : Prop :=
  lazyInit h1 = lazyInit h2 ∧ lazyUpdate h1 = lazyUpdate h2.

(** ** The raw header format, from its description

    Lines are separated by a newline; a line is split at its first colon;
    a line without a colon or with nothing before it is ignored; the value
    is the rest of the line, trimmed; the key is the lower-cased name. *)

(** The text before and after the first colon of a line. *)
Fixpoint spec_cut (line : string) : option (string * string) :=
  match line with
  | EmptyString => None
  | String c rest =>
      if Ascii.eqb c ":" then Some (EmptyString, rest)
      else match spec_cut rest with
           | Some (a, b) => Some (String c a, b)
           | None => None
           end
  end.

(** The name and the value of a line, when the line is not ignored. *)
Definition spec_line (line : string) : option (string * string) :=
  match spec_cut line with
  | Some (nm, rest) =>
      if String.eqb nm "" then None else Some (nm, trim rest)
  | None => None
  end.

(** The (name, value) pairs of a raw header block, in line order. *)
Definition spec_entries (raw : string) : list (string * string) :=
  omap spec_line (split raw LF).

(** The values of the lines whose name lower-cases to [key], in line
    order. *)
Definition spec_values (entries : list (string * string)) (key : string)
  : list string :=
  map snd (List.filter (λ e, String.eqb (toLowerCase e.1) key) entries).

(** The first-seen spelling of every name, in order of first
    appearance; [seen] holds the keys met so far. *)
Fixpoint spec_names (seen : list string) (entries : list (string * string))
  : list string :=
  match entries with
  | [] => []
  | (nm, _) :: rest =>
      if existsb (String.eqb (toLowerCase nm)) seen then spec_names seen rest
      else nm :: spec_names (toLowerCase nm :: seen) rest
  end.

(** ** Definitions for the proofs *)

(** The array a store of values writes to: the list of the key when the
    update appends and the key is present, a new array otherwise. *)
Definition prior_of (o : Op) (m : JsMap.t aref) (key : string) : option aref :=
  match o with OpA => JsMap.get m key | _ => None end.

(** What the loop over the lines has built after the entries [es], over
    the array cells [A0] it started from: every key holds its own array,
    allocated by the loop, with the values of the key's lines in order. *)
Definition parsed (A0 : Arrays) (es : list (string * string)) (st : Local) : Prop :=
  ∃ m, headers st.1 = Some m ∧
    maps_ok st.2 m (normalizedNames st.1) ∧
    (∀ key, match JsMap.get m key with
            | Some r => length A0 ≤ r ∧ st.2 !! r = Some (spec_values es key)
            | None => spec_values es key = []
            end) ∧
    (∀ k1 k2 r, JsMap.get m k1 = Some r → JsMap.get m k2 = Some r → k1 = k2) ∧
    JsMap.values (normalizedNames st.1) = spec_names [] es ∧
    length A0 ≤ length st.2 ∧
    (∀ r, r < length A0 → st.2 !! r = A0 !! r).

(** A string of white space only (the empty string included). *)
Fixpoint all_space (s : string) : bool :=
  match s with
  | EmptyString => true
  | String c s' => is_space c && all_space s'
  end.

(** The raw header block of the example: two lines. *)
Definition example_raw : string :=
  String.append "Content-Type: application/json" (String LF "X-Foo: a").

(** The reads of an initialised instance with value map [m] and display
    names [n] over the array cells [A], as one record of observations. *)
Definition view_has (m : JsMap.t aref) (nm : string) : bool :=
  JsMap.has m (toLowerCase nm).

Definition view_getAll (A : Arrays) (m : JsMap.t aref) (nm : string)
  : option (option (list string)) :=
  match JsMap.get m (toLowerCase nm) with
  | Some r => l ← A !! r; Some (Some l)
  | None => Some None
  end.

Definition view_get (A : Arrays) (m : JsMap.t aref) (nm : string)
  : option (option string) :=
  match JsMap.get m (toLowerCase nm) with
  | Some r => l ← A !! r; Some (head l)
  | None => Some None
  end.

(** Every display name lower-cases to the key it is stored under. *)
Definition names_ok (n : JsMap.t string) : Prop :=
  Forall (λ kn, toLowerCase kn.2 = kn.1) n.

Definition names_wf (σ : Heap) : Prop :=
  ∀ o h, objects σ !! o = Some h → names_ok (normalizedNames h).

(** The calls that read a collection. *)
Definition is_read (c : Call) : bool :=
  match c with
  | CHas _ _ | CGet _ _ | CKeys _ | CGetAll _ _ | CForEach _ => true
  | _ => false
  end.


(** ** A record given to the constructor, as the constructor reads it *)

(** The value is a string or an array that is not empty. *)
Definition has_items (A : Arrays) (v : Value) : bool :=
  match valueItems A v with
  | Some (_ :: _) => true
  | _ => false
  end.

(** The value a key ends up with: that of the last property whose name
    lower-cases to the key and whose value has items. *)
Fixpoint record_entry (A : Arrays) (rec : RecordInput) (key : string)
  : option Value :=
  match rec with
  | [] => None
  | (nm, v) :: rest =>
      match record_entry A rest key with
      | Some w => Some w
      | None =>
          if String.eqb (toLowerCase nm) key && has_items A v then Some v else None
      end
  end.

(** The items of that value. *)
Definition record_values (A : Arrays) (rec : RecordInput) (key : string)
  : option (list string) :=
  v ← record_entry A rec key; valueItems A v.

(** The first spelling of every name of a list, in order of first
    appearance; [seen] holds the lower-case forms met so far. *)
Fixpoint first_seen (seen : list string) (names : list string) : list string :=
  match names with
  | [] => []
  | nm :: rest =>
      if existsb (String.eqb (toLowerCase nm)) seen then first_seen seen rest
      else nm :: first_seen (toLowerCase nm :: seen) rest
  end.

(** The names of the properties whose value has items. *)
Definition record_names (A : Arrays) (rec : RecordInput) : list string :=
  map fst (List.filter (λ nv : string * Value, has_items A nv.2) rec).

(** What the loop over the properties has built after the properties
    [rc], over the array cells [A0] it started from. *)
Definition recorded (A0 : Arrays) (rc : RecordInput) (st : Local) : Prop :=
  ∃ m, headers st.1 = Some m ∧
    maps_ok st.2 m (normalizedNames st.1) ∧
    (∀ key, match record_entry A0 rc key with
            | Some v =>
                ∃ r, JsMap.get m key = Some r ∧ st.2 !! r = valueItems A0 v ∧
                     (∀ r', v = VArr r' → r = r')
            | None => JsMap.get m key = None
            end) ∧
    JsMap.values (normalizedNames st.1) = first_seen [] (record_names A0 rc) ∧
    length A0 ≤ length st.2 ∧
    (∀ r, r < length A0 → st.2 !! r = A0 !! r).

(** ** Line ends *)

Definition CR : ascii := ascii_of_nat 13.

(** A raw header block with every LF turned into CR LF. *)
Fixpoint crlf (raw : string) : string :=
  match raw with
  | EmptyString => EmptyString
  | String c rest =>
      if Ascii.eqb c LF then String CR (String LF (crlf rest))
      else String c (crlf rest)
  end.

(** * The handler chain of module.ts *)

Section Handlers.
Variables Backend Interceptor Request : Type.

(** A handler: the backend, or an [HttpInterceptorHandler] made by
    [new HttpInterceptorHandler(next, interceptor)]. *)
Inductive HttpHandler :=
| HBackend (backend : Backend)
| HttpInterceptorHandler (next : HttpHandler) (interceptor : Interceptor).

(** [Array.prototype.reduceRight] with an initial value: the elements
    are visited from the last index down to the first. *)
Definition reduceRight {A B : Type} (f : B → A → B) (l : list A) (init : B) : B :=
  fold_left f (rev l) init.

(** The second argument of [interceptingHandler]: left out, [null], or
    an array. *)
Inductive Interceptors :=
| IOmitted
| INull
| IList (l : list Interceptor).

(** [interceptingHandler]; the parameter defaults to [[]] when it is left
    out, and [!interceptors] holds for [null] only. *)
Definition interceptingHandler (backend : Backend) (interceptors : Interceptors)
  : HttpHandler :=
  let interceptors :=
    match interceptors with
    | IOmitted => Some []
    | INull => None
    | IList l => Some l
    end in
  match interceptors with
  | None => HBackend backend
  | Some l => reduceRight HttpInterceptorHandler l (HBackend backend)
  end.

(** An instance of the class [HttpInterceptingHandler]; the injector is
    outside the instance. *)
Record HttpInterceptingHandler := mkHttpInterceptingHandler {
  chain : option HttpHandler;
  backend_ : Backend
}.

(** [handle(req)], where [provided] is what
    [injector.get(HTTP_INTERCEPTORS, [])] returns at the time of the call:
    the handler and the request of the call [this.chain.handle(req)], and
    the instance after the call. *)
Definition handle (provided : list Interceptor) (req : Request)
  (this : HttpInterceptingHandler)
  : (HttpHandler * Request) * HttpInterceptingHandler :=
  let c :=
    match chain this with
    | None => reduceRight HttpInterceptorHandler provided (HBackend (backend_ this))
    | Some c => c
    end in
  ((c, req), mkHttpInterceptingHandler (Some c) (backend_ this)).

(** Calls of [handle] one after the other, each with the interceptors
    provided at its time and its request: the delegated calls in order. *)
Fixpoint handle_all (calls : list (list Interceptor * Request))
  (this : HttpInterceptingHandler) : list (HttpHandler * Request) :=
  match calls with
  | [] => []
  | (provided, req) :: rest =>
      let '(d, this) := handle provided req this in
      d :: handle_all rest this
  end.

(** The interceptors of a chain from the outermost handler inwards, and
    the backend at its end. *)
Fixpoint unchain (h : HttpHandler) : list Interceptor * Backend :=
  match h with
  | HBackend b => ([], b)
  | HttpInterceptorHandler next i => let '(l, b) := unchain next in (i :: l, b)
  end.

End Handlers.

Arguments HBackend {Backend Interceptor} backend.
Arguments HttpInterceptorHandler {Backend Interceptor} next interceptor.
Arguments IOmitted {Interceptor}.
Arguments INull {Interceptor}.
Arguments IList {Interceptor} l.
Arguments interceptingHandler {Backend Interceptor} backend interceptors.
Arguments mkHttpInterceptingHandler {Backend Interceptor} chain backend_.
Arguments chain {Backend Interceptor} h.
Arguments backend_ {Backend Interceptor} h.
Arguments handle {Backend Interceptor Request} provided req this.
Arguments handle_all {Backend Interceptor Request} calls this.
Arguments unchain {Backend Interceptor} h.

(** * Proofs *)

(** ** Maps *)
Module JsMapFacts.
Import JsMap.
Section Facts.
Context {V : Type}.
Implicit Types (m : JsMap.t V) (k : string) (v : V).

Lemma get_None_keys m k : get m k = None ↔ k ∉ keys m.
Proof.
  induction m as [|[k' v'] m IH]; simpl.
  - split; [intros _; apply not_elem_of_nil | done].
  - destruct (String.eqb_spec k' k) as [->|Hne].
    + split; [done | intros H; exfalso; apply H; left].
    + rewrite IH, not_elem_of_cons. split; [by split|by intros [_ ?]].
Qed.

Lemma get_Some_keys m k v : get m k = Some v → k ∈ keys m.
Proof.
  intros H. destruct (decide (k ∈ keys m)) as [|Hn]; [done|].
  apply get_None_keys in Hn. congruence.
Qed.

Lemma keys_get m k : k ∈ keys m → is_Some (get m k).
Proof.
  intros H. destruct (get m k) eqn:E; [eauto|].
  apply get_None_keys in E. done.
Qed.

Lemma has_get m k : has m k = bool_decide (is_Some (get m k)).
Proof.
  unfold has. destruct (get m k); symmetry.
  - apply bool_decide_eq_true. eauto.
  - apply bool_decide_eq_false. intros [? ?]. done.
Qed.

Lemma has_false_get m k : has m k = false ↔ get m k = None.
Proof. unfold has. destruct (get m k); naive_solver. Qed.

Lemma get_set_eq m k v : get (set m k v) k = Some v.
Proof.
  induction m as [|[k' v'] m IH]; simpl.
  - by rewrite String.eqb_refl.
  - destruct (String.eqb k' k) eqn:E; simpl; by rewrite E.
Qed.

Lemma get_set_ne m k k' v : k ≠ k' → get (set m k v) k' = get m k'.
Proof.
  intros Hne. induction m as [|[k0 v0] m IH]; simpl.
  - destruct (String.eqb_spec k k'); done.
  - destruct (String.eqb_spec k0 k) as [->|]; simpl.
    + destruct (String.eqb_spec k k'); done.
    + by rewrite IH.
Qed.

Lemma set_absent m k v : get m k = None → set m k v = m ++ [(k, v)].
Proof.
  induction m as [|[k' v'] m IH]; simpl; [done|].
  destruct (String.eqb k' k); [done|]. intros H. by rewrite IH.
Qed.

Lemma keys_set_present m k v : is_Some (get m k) → keys (set m k v) = keys m.
Proof.
  induction m as [|[k' v'] m IH]; simpl.
  - intros [? ?]. done.
  - destruct (String.eqb k' k); simpl; [done|].
    intros H. by rewrite IH.
Qed.

Lemma keys_set_absent m k v : get m k = None → keys (set m k v) = keys m ++ [k].
Proof.
  intros H. rewrite set_absent by done. unfold keys. by rewrite map_app.
Qed.

Lemma keys_delete m k :
  keys (delete m k) = List.filter (λ k', negb (String.eqb k' k)) (keys m).
Proof.
  induction m as [|[k' v'] m IH]; simpl; [done|].
  destruct (String.eqb k' k); simpl; by rewrite IH.
Qed.



Lemma Forall_set (Q : V → Prop) m k v :
  Forall (λ kv, Q kv.2) m → Q v → Forall (λ kv, Q kv.2) (set m k v).
Proof.
  intros Hm Hv. induction Hm as [|[k' v'] m Hx Hm IH]; simpl.
  - by constructor.
  - destruct (String.eqb k' k); constructor; done.
Qed.

Lemma Forall_delete (Q : string * V → Prop) m k :
  Forall Q m → Forall Q (delete m k).
Proof.
  intros Hm. induction Hm as [|[k' v'] m Hx Hm IH]; simpl; [done|].
  destruct (String.eqb k' k); [done|]. by constructor.
Qed.

Lemma Forall_get (Q : V → Prop) m k v :
  Forall (λ kv, Q kv.2) m → get m k = Some v → Q v.
Proof.
  intros Hm. induction Hm as [|[k' v'] m Hx Hm IH]; simpl; [done|].
  destruct (String.eqb k' k); [|done]. by intros [= <-].
Qed.
End Facts.

Lemma NoDup_filter_keys (f : string → bool) (l : list string) :
  NoDup l → NoDup (List.filter f l).
Proof.
  induction 1 as [|x l Hx Hl IH]; simpl; [constructor|].
  destruct (f x); [|done]. constructor; [|done].
  rewrite list_elem_of_In, filter_In, <- list_elem_of_In. by intros [? _].
Qed.
End JsMapFacts.

(** ** Array cells *)

Lemma grows_refl A : grows A A.
Proof.
  split; [done|]. intros r l H. exists []. by rewrite app_nil_r.
Qed.

Lemma grows_trans A B C : grows A B → grows B C → grows A C.
Proof.
  intros [HlAB HAB] [HlBC HBC]. split; [lia|].
  intros r l H. destruct (HAB r l H) as (l1 & H1 & E1).
  destruct (HBC r _ H1) as (l2 & H2 & E2).
  exists (l1 ++ l2). rewrite app_assoc. split; [done|].
  intros ->. rewrite (E1 eq_refl) in *. simpl in *. by rewrite (E2 eq_refl).
Qed.

Lemma grows_alloc A l : grows A (A ++ [l]).
Proof.
  split; [rewrite length_app; lia|]. intros r l0 H.
  exists []. rewrite app_nil_r. split; [|done].
  by apply lookup_app_l_Some.
Qed.

Lemma grows_push A r l items :
  A !! r = Some l → l ≠ [] → grows A (<[r := l ++ items]> A).
Proof.
  intros H Hne. split; [by rewrite length_insert|]. intros r' l' H'.
  destruct (decide (r = r')) as [<-|Hr].
  - exists items. rewrite list_lookup_insert_eq by (by eapply lookup_lt_Some).
    split; [congruence|]. intros ->. congruence.
  - exists []. rewrite list_lookup_insert_ne, app_nil_r by done. done.
Qed.

Lemma insert_fresh (A : Arrays) x y : <[length A := x]> (A ++ [y]) = A ++ [x].
Proof.
  replace (length A) with (length A + 0) by lia.
  by rewrite insert_app_r.
Qed.

Lemma lookup_fresh (A : Arrays) x : (A ++ [x]) !! length A = Some x.
Proof. by rewrite lookup_app_r, Nat.sub_diag by lia. Qed.

Lemma push_fresh (A : Arrays) items :
  push (A ++ [[]]) (length A) items = Some (A ++ [items]).
Proof. unfold push. rewrite lookup_fresh. simpl. by rewrite insert_fresh. Qed.

Lemma value_ok_grows A A' v : grows A A' → value_ok A v → value_ok A' v.
Proof. intros [Hl _]. destruct v; simpl; [done|lia]. Qed.

Lemma record_ok_grows A A' rec : grows A A' → record_ok A rec → record_ok A' rec.
Proof.
  intros Hg H. unfold record_ok. eapply Forall_impl; [exact H|].
  intros nv. by apply value_ok_grows.
Qed.

Lemma update_ok_grows A A' u : grows A A' → update_ok A u → update_ok A' u.
Proof.
  intros Hg. unfold update_ok. destruct (op u).
  - intros (v & ? & ?). exists v. eauto using value_ok_grows.
  - intros (v & ? & ?). exists v. eauto using value_ok_grows.
  - destruct (value u); simpl; eauto using value_ok_grows.
Qed.

Lemma updates_ok_grows A A' lu : grows A A' → updates_ok A lu → updates_ok A' lu.
Proof.
  intros Hg H. unfold updates_ok. eapply Forall_impl; [exact H|].
  intros u. by apply update_ok_grows.
Qed.

Lemma nonempty_grows A A' r :
  grows A A' → (∃ l, A !! r = Some l ∧ l ≠ []) → ∃ l, A' !! r = Some l ∧ l ≠ [].
Proof.
  intros [_ Hg] (l & H & Hne). destruct (Hg r l H) as (l' & H' & _).
  exists (l ++ l'). split; [done|]. destruct l; done.
Qed.

Lemma maps_ok_grows A A' m n : grows A A' → maps_ok A m n → maps_ok A' m n.
Proof.
  intros Hg (Hk & Hnd & Hv). repeat split; [done..|].
  eapply Forall_impl; [exact Hv|]. intros kr. by apply nonempty_grows.
Qed.

Lemma obj_ok_grows A A' o h : grows A A' → obj_ok A o h → obj_ok A' o h.
Proof.
  intros Hg. unfold obj_ok. destruct (lazyInit h).
  - intros (? & m & ? & ?). eauto using maps_ok_grows.
  - intros (? & ? & ? & ?). eauto 6 using updates_ok_grows.
  - done.
  - intros (? & ? & ?). eauto using record_ok_grows.
Qed.

Lemma value_ok_lookup A r : value_ok A (VArr r) → ∃ l, A !! r = Some l.
Proof. simpl. intros H. by apply lookup_lt_is_Some_2. Qed.

(** ** The maps of one instance *)

Lemma maps_ok_empty A : maps_ok A JsMap.empty JsMap.empty.
Proof. repeat split; constructor. Qed.

Lemma maps_ok_get A m n key r :
  maps_ok A m n → JsMap.get m key = Some r → ∃ l, A !! r = Some l ∧ l ≠ [].
Proof.
  intros (_ & _ & Hv) Hg.
  by apply (JsMapFacts.Forall_get (λ r, ∃ l, A !! r = Some l ∧ l ≠ []) m key r).
Qed.

Lemma maps_ok_has A m n key :
  maps_ok A m n → JsMap.has n key = JsMap.has m key.
Proof.
  intros (Hk & _ & _). rewrite !JsMapFacts.has_get.
  apply bool_decide_ext. split; intros H.
  - apply JsMapFacts.keys_get. rewrite Hk.
    destruct H as [x H]. by eapply JsMapFacts.get_Some_keys.
  - apply JsMapFacts.keys_get. rewrite <- Hk.
    destruct H as [x H]. by eapply JsMapFacts.get_Some_keys.
Qed.

(** Setting a key in [headers] after [maybeSetNormalizedName]. *)
Lemma maps_ok_set A this m nm key r :
  maps_ok A m (normalizedNames this) →
  (∃ l, A !! r = Some l ∧ l ≠ []) →
  maps_ok A (JsMap.set m key r)
    (normalizedNames (maybeSetNormalizedName nm key this)).
Proof.
  intros Hok Hr. pose proof (maps_ok_has _ _ _ key Hok) as Hhas.
  destruct Hok as (Hk & Hnd & Hv).
  unfold maybeSetNormalizedName.
  destruct (JsMap.has (normalizedNames this) key) eqn:E; simpl.
  - symmetry in Hhas. rewrite JsMapFacts.has_get in Hhas.
    apply bool_decide_eq_true in Hhas.
    repeat split.
    + by rewrite JsMapFacts.keys_set_present.
    + by rewrite JsMapFacts.keys_set_present.
    + by apply (JsMapFacts.Forall_set (λ r, ∃ l, A !! r = Some l ∧ l ≠ [])).
  - symmetry in Hhas. apply JsMapFacts.has_false_get in Hhas, E.
    repeat split.
    + rewrite !JsMapFacts.keys_set_absent by done. by rewrite Hk.
    + rewrite JsMapFacts.keys_set_absent by done.
      apply NoDup_app. split; [done|]. split; [|apply NoDup_singleton].
      intros x Hx ->%list_elem_of_singleton.
      by apply JsMapFacts.get_None_keys in Hhas.
    + by apply (JsMapFacts.Forall_set (λ r, ∃ l, A !! r = Some l ∧ l ≠ [])).
Qed.

(** Setting a key that is present leaves the names alone. *)
Lemma maps_ok_replace A m n key r :
  maps_ok A m n → is_Some (JsMap.get m key) →
  (∃ l, A !! r = Some l ∧ l ≠ []) →
  maps_ok A (JsMap.set m key r) n.
Proof.
  intros (Hk & Hnd & Hv) Hin Hr. repeat split.
  - by rewrite JsMapFacts.keys_set_present.
  - by rewrite JsMapFacts.keys_set_present.
  - by apply (JsMapFacts.Forall_set (λ r, ∃ l, A !! r = Some l ∧ l ≠ [])).
Qed.

Lemma maps_ok_delete A m n key :
  maps_ok A m n → maps_ok A (JsMap.delete m key) (JsMap.delete n key).
Proof.
  intros (Hk & Hnd & Hv). repeat split.
  - by rewrite !JsMapFacts.keys_delete, Hk.
  - rewrite JsMapFacts.keys_delete. by apply JsMapFacts.NoDup_filter_keys.
  - by apply JsMapFacts.Forall_delete.
Qed.

Lemma headers_maybeSet nm key this :
  headers (maybeSetNormalizedName nm key this) = headers this.
Proof. unfold maybeSetNormalizedName. by destruct (negb _). Qed.

Lemma lazy_maybeSet nm key this :
  same_lazy this (maybeSetNormalizedName nm key this).
Proof. unfold maybeSetNormalizedName, same_lazy. by destruct (negb _). Qed.

Lemma toArray_spec A v items :
  valueItems A v = Some items →
  ∃ val A1, toArray v A = (val, A1) ∧ A1 !! val = Some items ∧
    length A ≤ length A1 ∧ (∀ r, r < length A → A1 !! r = A !! r) ∧
    (∀ r, r < length A1 → r = val ∨ r < length A).
Proof.
  destruct v as [s|r]; simpl.
  - intros [= <-]. exists (length A), (A ++ [[s]]).
    rewrite lookup_fresh, length_app. simpl. repeat split; [lia| |].
    + intros r Hr. by rewrite lookup_app_l.
    + intros r Hr. lia.
  - intros H. exists r, A. repeat split; [done..|]. intros; by right.
Qed.

Lemma applyUpdate_store u this A m v items :
  op u ≠ OpD → headers this = Some m → maps_ok A m (normalizedNames this) →
  value u = Some v → valueItems A v = Some items → items ≠ [] →
  let key := toLowerCase (name u) in
  ∃ base A' prior,
    applyUpdate u (this, A) =
      Some (with_headers (JsMap.set m key base)
              (maybeSetNormalizedName (name u) key this), A') ∧
    A' !! base = Some (prior ++ items) ∧
    match prior_of (op u) m key with
    | Some b => base = b ∧ A !! b = Some prior
    | None => length A ≤ base ∧ prior = []
    end ∧
    length A ≤ length A' ∧
    (∀ r, r < length A → r ≠ base → A' !! r = A !! r).
Proof.
  intros Hop Hm Hok Hv Hitems Hne key.
  destruct (toArray_spec A v items Hitems) as (val & A1 & HtA & Hval & Hlen & Hold & Hnew).
  assert (applyUpdate u (this, A) =
    (let '(base, A2) := match prior_of (op u) m key with
                        | Some b => (b, A1) | None => alloc A1 [] end in
     A3 ← push A2 base items;
     Some (with_headers (JsMap.set m key base)
             (maybeSetNormalizedName (name u) key this), A3))) as ->.
  { unfold applyUpdate. fold key.
    destruct (op u) eqn:E; [| |done]; rewrite Hv; simpl; rewrite HtA, Hval; simpl;
      (destruct items; [done|]); simpl; rewrite headers_maybeSet, Hm; simpl; done. }
  destruct (prior_of (op u) m key) as [b|] eqn:Hp.
  - assert (JsMap.get m key = Some b) as Hg.
    { unfold prior_of in Hp. by destruct (op u). }
    destruct (maps_ok_get _ _ _ _ _ Hok Hg) as (l & Hl & Hlne).
    assert (b < length A) as Hb by (by eapply lookup_lt_Some).
    exists b, (<[b := l ++ items]> A1), l.
    unfold push. cbv beta iota zeta. rewrite (Hold b Hb), Hl. simpl.
    rewrite list_lookup_insert_eq by lia. rewrite length_insert.
    split; [done|]. split; [done|]. split; [done|]. split; [done|].
    intros r Hr Hrb. rewrite list_lookup_insert_ne by done. by apply Hold.
  - exists (length A1), (A1 ++ [items]), []. unfold alloc. cbv beta iota zeta.
    rewrite push_fresh. simpl. rewrite lookup_fresh, length_app.
    split; [done|]. split; [done|]. split; [done|]. split; [lia|]. intros r Hr _. rewrite lookup_app_l by lia. by apply Hold.
Qed.

Lemma applyUpdate_empty u this A v :
  op u ≠ OpD → value u = Some v → valueItems A v = Some [] →
  applyUpdate u (this, A) = Some (this, A).
Proof.
  intros Hop Hv Hitems. destruct v as [s|r]; [done|]. simpl in Hitems.
  unfold applyUpdate. destruct (op u); [| |done]; rewrite Hv; simpl; by rewrite Hitems.
Qed.

Lemma with_headers_lazy m this : same_lazy this (with_headers m this).
Proof. done. Qed.

Lemma same_lazy_trans h1 h2 h3 : same_lazy h1 h2 → same_lazy h2 h3 → same_lazy h1 h3.
Proof. intros [? ?] [? ?]. split; congruence. Qed.

Lemma applyUpdate_ok u this A :
  local_ok (this, A) → update_ok A u →
  ∃ this' A', applyUpdate u (this, A) = Some (this', A') ∧
    local_ok (this', A') ∧ grows A A' ∧ same_lazy this this'.
Proof.
  intros (m & Hm & Hok) Hu. simpl in Hm, Hok.
  destruct (decide (op u = OpD)) as [Hop|Hop].
  - unfold applyUpdate, update_ok in *. rewrite Hop in *. rewrite Hm. simpl.
    assert (∀ A', grows A A' →
      local_ok (with_normalizedNames (JsMap.delete (normalizedNames this) (toLowerCase (name u)))
                 (with_headers (JsMap.delete m (toLowerCase (name u))) this), A')) as Hdel.
    { intros A' Hg. eexists. split; [done|]. simpl.
      apply maps_ok_delete. by eapply maps_ok_grows. }
    destruct (truthy (value u)) as [toDelete|] eqn:Ht.
    + destruct (JsMap.get m (toLowerCase (name u))) as [existing|] eqn:Hg.
      * destruct (maps_ok_get _ _ _ _ _ Hok Hg) as (l & Hl & Hlne).
        rewrite Hl. simpl.
        assert (∃ keep, keepValue toDelete A = Some keep) as [keep ->].
        { destruct (value u) as [[s|r]|]; simpl in *; [| |done].
          - destruct (String.eqb s ""); [done|]. injection Ht as <-. simpl. eauto.
          - injection Ht as <-. simpl.
            destruct (lookup_lt_is_Some_2 A r Hu) as [x ->]. simpl. eauto. }
        simpl.
        destruct (length (List.filter keep l) =? 0) eqn:Hk.
        -- do 2 eexists. split; [done|]. split; [apply Hdel, grows_alloc|].
           split; [apply grows_alloc|done].
        -- do 2 eexists. split; [done|]. split; [|split; [apply grows_alloc|done]].
           exists (JsMap.set m (toLowerCase (name u)) (length A)). split; [done|]. simpl.
           apply maps_ok_replace; [eapply maps_ok_grows; [apply grows_alloc|done]|by rewrite Hg|].
           eexists. split; [apply lookup_fresh|]. intros E. by rewrite E in Hk.
      * do 2 eexists. split; [done|]. split; [by exists m|]. split; [apply grows_refl|done].
    + do 2 eexists. split; [done|]. split; [apply Hdel, grows_refl|].
      split; [apply grows_refl|done].
  - assert (∃ v, value u = Some v ∧ value_ok A v) as (v & Hv & Hvok).
    { unfold update_ok in Hu. by destruct (op u). }
    assert (∃ items, valueItems A v = Some items) as [items Hitems].
    { destruct v as [s|r]; simpl; [eauto|]. by apply lookup_lt_is_Some_2. }
    destruct (decide (items = [])) as [->|Hne].
    + rewrite (applyUpdate_empty u this A v) by done.
      do 2 eexists. split; [done|]. split; [by exists m|]. split; [apply grows_refl|done].
    + destruct (applyUpdate_store u this A m v items Hop Hm Hok Hv Hitems Hne)
        as (base & A' & prior & -> & Hbase & Hprior & Hlen & Hold).
      assert (grows A A') as Hgrow.
      { split; [done|]. intros r l Hr.
        assert (r < length A) as Hlt by (by eapply lookup_lt_Some).
        destruct (decide (r = base)) as [->|Hrb].
        - destruct (prior_of (op u) m (toLowerCase (name u))) as [b|] eqn:Hp.
          + destruct Hprior as [-> Hb]. exists items. rewrite Hbase.
            assert (JsMap.get m (toLowerCase (name u)) = Some b) as Hg.
            { unfold prior_of in Hp. by destruct (op u). }
            destruct (maps_ok_get _ _ _ _ _ Hok Hg) as (l0 & Hl0 & Hlne).
            split; [congruence|]. intros ->. congruence.
          + destruct Hprior as [? _]. lia.
        - exists []. rewrite app_nil_r, Hold by done. done. }
      do 2 eexists. split; [done|]. split; [|split; [done|]].
      * eexists. split; [done|]. simpl.
        apply maps_ok_set; [by eapply maps_ok_grows|].
        eexists. split; [done|]. destruct prior, items; done.
      * eapply same_lazy_trans; [apply lazy_maybeSet|apply with_headers_lazy].
Qed.

Lemma forEachM_cons {X S} (body : X → S → option S) x xs s :
  forEachM body (x :: xs) s = body x s ≫= forEachM body xs.
Proof. done. Qed.

Lemma forEachM_app {X S} (body : X → S → option S) xs ys s :
  forEachM body (xs ++ ys) s = forEachM body xs s ≫= forEachM body ys.
Proof.
  revert s. induction xs as [|x xs IH]; intros s; [done|].
  rewrite <- app_comm_cons, !forEachM_cons.
  destruct (body x s) as [s'|]; simpl; [apply IH|done].
Qed.

Lemma forEachM_applyUpdate_ok us this A :
  local_ok (this, A) → Forall (update_ok A) us →
  ∃ this' A', forEachM applyUpdate us (this, A) = Some (this', A') ∧
    local_ok (this', A') ∧ grows A A' ∧ same_lazy this this'.
Proof.
  revert this A. induction us as [|u us IH]; intros this A Hok Hus.
  - simpl. do 2 eexists. split; [done|]. split; [done|]. split; [apply grows_refl|done].
  - apply Forall_cons in Hus as [Hu Hus]. rewrite forEachM_cons.
    destruct (applyUpdate_ok u this A Hok Hu) as (this1 & A1 & -> & Hok1 & Hg1 & Hl1).
    simpl. destruct (IH this1 A1 Hok1) as (this2 & A2 & -> & Hok2 & Hg2 & Hl2).
    { eapply Forall_impl; [exact Hus|]. intros x. by apply update_ok_grows. }
    do 2 eexists. split; [done|]. split; [done|].
    split; [by eapply grows_trans|by eapply same_lazy_trans].
Qed.

(** ** Lines of a raw header block *)

Lemma cut_append line a b :
  spec_cut line = Some (a, b) → line = String.append a (String ":" b).
Proof.
  revert a b. induction line as [|c rest IH]; intros a b; simpl; [done|].
  destruct (Ascii.eqb_spec c ":") as [->|Hc].
  - by intros [= <- <-].
  - destruct (spec_cut rest) as [[a' b']|]; [|done].
    intros [= <- <-]. simpl. by rewrite (IH a' b').
Qed.

Lemma cut_no_colon line a b :
  spec_cut line = Some (a, b) → spec_cut a = None.
Proof.
  revert a b. induction line as [|c rest IH]; intros a b; simpl; [done|].
  destruct (Ascii.eqb_spec c ":") as [->|Hc].
  - by intros [= <- <-].
  - destruct (spec_cut rest) as [[a' b']|]; [|done].
    intros [= <- <-]. simpl. apply Ascii.eqb_neq in Hc. rewrite Hc.
    by rewrite (IH a' b').
Qed.

Lemma prefix_colon c rest :
  String.prefix ":" (String c rest) = Ascii.eqb c ":".
Proof.
  cbn [String.prefix]. destruct (Ascii.ascii_dec ":" c) as [<-|Hne].
  - by destruct rest.
  - symmetry. apply Ascii.eqb_neq. congruence.
Qed.

Lemma indexOf_from_cut line i :
  indexOf_from line ":" i =
    match spec_cut line with
    | Some (a, _) => (i + Z.of_nat (String.length a))%Z
    | None => (-1)%Z
    end.
Proof.
  revert i. induction line as [|c rest IH]; intros i; [done|].
  cbn [indexOf_from spec_cut]. rewrite prefix_colon.
  destruct (Ascii.eqb c ":"); simpl; [lia|].
  rewrite IH. destruct (spec_cut rest) as [[a b]|]; simpl; lia.
Qed.

Lemma indexOf_cut line :
  indexOf line ":" =
    match spec_cut line with
    | Some (a, _) => Z.of_nat (String.length a)
    | None => (-1)%Z
    end.
Proof.
  unfold indexOf. rewrite indexOf_from_cut.
  by destruct (spec_cut line) as [[a b]|].
Qed.

Lemma substring_all s : String.substring 0 (String.length s) s = s.
Proof. induction s as [|c s IH]; simpl; [done|]. by rewrite IH. Qed.

Lemma substring_append_l a s :
  String.substring 0 (String.length a) (String.append a s) = a.
Proof.
  induction a as [|c a IH]; simpl.
  - by destruct s.
  - by rewrite IH.
Qed.

Lemma substring_append_r a s :
  String.substring (String.length a) (String.length s) (String.append a s) = s.
Proof.
  induction a as [|c a IH]; simpl; [apply substring_all|done].
Qed.

Lemma length_append a s :
  String.length (String.append a s) = String.length a + String.length s.
Proof. induction a as [|c a IH]; simpl; [done|]. by rewrite IH. Qed.

Lemma append_cons c a s :
  String.append (String c a) s = String c (String.append a s).
Proof. done. Qed.

Lemma slice_name a b :
  slice (String.append a (String ":" b)) 0 (Some (Z.of_nat (String.length a))) = a.
Proof.
  unfold slice, clamp. rewrite length_append. simpl.
  replace (Z.of_nat (String.length a) <? 0)%Z with false by (symmetry; apply Z.ltb_ge; lia).
  rewrite Z.min_l, Z.min_l by lia.
  rewrite Z.sub_0_r, Nat2Z.id. apply substring_append_l.
Qed.

Lemma slice_value a b :
  slice (String.append a (String ":" b)) (Z.of_nat (String.length a) + 1) None = b.
Proof.
  assert (String.append a (String ":" b) = String.append (String.append a ":") b) as ->.
  { induction a as [|c a IH]; [done|]. rewrite !append_cons. by f_equal. }
  assert (Z.of_nat (String.length a) + 1 = Z.of_nat (String.length (String.append a ":")))%Z as ->.
  { rewrite length_append. simpl. lia. }
  generalize (String.append a ":"). intros p.
  unfold slice, clamp. rewrite length_append.
  replace (Z.of_nat (String.length p) <? 0)%Z with false by (symmetry; apply Z.ltb_ge; lia).
  rewrite Z.min_l by lia. rewrite Nat2Z.id.
  replace (Z.to_nat _) with (String.length b) by lia.
  apply substring_append_r.
Qed.

(** The name and the value the constructor reads off a line are the two
    sides of its first colon. *)
Lemma parseLine_spec line this A :
  parseLine line (this, A) =
    match spec_line line with
    | Some (nm, val) =>
        let key := toLowerCase nm in
        let this := maybeSetNormalizedName nm key this in
        m ← headers this;
        match JsMap.get m key with
        | Some r => A' ← push A r [val]; Some (this, A')
        | None =>
            let '(r, A') := alloc A [val] in
            Some (with_headers (JsMap.set m key r) this, A')
        end
    | None => Some (this, A)
    end.
Proof.
  unfold parseLine, spec_line. rewrite indexOf_cut.
  destruct (spec_cut line) as [[a b]|] eqn:Hcut; [|done].
  apply cut_append in Hcut as ->.
  destruct a as [|c a]; [done|].
  replace (0 <? Z.of_nat (String.length (String c a)))%Z with true
    by (symmetry; apply Z.ltb_lt; simpl; lia).
  rewrite slice_name, slice_value. done.
Qed.


Lemma spec_values_snoc es nm v key :
  spec_values (es ++ [(nm, v)]) key =
    spec_values es key ++ (if String.eqb (toLowerCase nm) key then [v] else []).
Proof.
  unfold spec_values. rewrite List.filter_app, List.map_app. simpl.
  by destruct (String.eqb (toLowerCase nm) key).
Qed.

Lemma spec_values_cons nm v es key :
  spec_values ((nm, v) :: es) key =
    (if String.eqb (toLowerCase nm) key then [v] else []) ++ spec_values es key.
Proof.
  unfold spec_values. simpl. by destruct (String.eqb (toLowerCase nm) key).
Qed.

Lemma spec_names_snoc seen es nm v :
  spec_names seen (es ++ [(nm, v)]) =
    spec_names seen es ++
      (if existsb (String.eqb (toLowerCase nm)) seen then []
       else match spec_values es (toLowerCase nm) with [] => [nm] | _ => [] end).
Proof.
  revert seen. induction es as [|[nm0 v0] es IH]; intros seen.
  - simpl. by destruct (existsb _ seen).
  - rewrite <- app_comm_cons. cbn [spec_names]. rewrite spec_values_cons.
    destruct (existsb (String.eqb (toLowerCase nm0)) seen) eqn:E0.
    + rewrite IH. f_equal.
      destruct (String.eqb_spec (toLowerCase nm0) (toLowerCase nm)) as [Heq|Hne]; [|done].
      by rewrite <- Heq, E0.
    + rewrite <- app_comm_cons. f_equal. rewrite IH. f_equal. cbn [existsb].
      rewrite String.eqb_sym.
      destruct (String.eqb_spec (toLowerCase nm0) (toLowerCase nm)) as [Heq|Hne]; simpl.
      * by rewrite <- Heq, E0.
      * done.
Qed.

Lemma names_maybeSet_absent nm key this :
  JsMap.get (normalizedNames this) key = None →
  normalizedNames (maybeSetNormalizedName nm key this) =
    normalizedNames this ++ [(key, nm)].
Proof.
  intros H. unfold maybeSetNormalizedName, JsMap.has. rewrite H. simpl.
  by apply JsMapFacts.set_absent.
Qed.

Lemma names_maybeSet_present nm key this :
  is_Some (JsMap.get (normalizedNames this) key) →
  maybeSetNormalizedName nm key this = this.
Proof.
  intros [x H]. unfold maybeSetNormalizedName, JsMap.has. by rewrite H.
Qed.

Lemma maps_ok_get_names A m n key :
  maps_ok A m n → JsMap.get m key = None → JsMap.get n key = None.
Proof.
  intros Hok H. pose proof (maps_ok_has _ _ _ key Hok) as Hh.
  apply JsMapFacts.has_false_get. rewrite Hh. by apply JsMapFacts.has_false_get.
Qed.

Lemma maps_ok_get_names_Some A m n key r :
  maps_ok A m n → JsMap.get m key = Some r → is_Some (JsMap.get n key).
Proof.
  intros Hok H. pose proof (maps_ok_has _ _ _ key Hok) as Hh.
  destruct (JsMap.get n key) eqn:E; [eauto|].
  apply JsMapFacts.has_false_get in E. rewrite Hh in E.
  apply JsMapFacts.has_false_get in E. congruence.
Qed.

Lemma parseLine_parsed A0 es line this A :
  parsed A0 es (this, A) →
  ∃ this' A', parseLine line (this, A) = Some (this', A') ∧
    parsed A0 (es ++ from_option (λ e, [e]) [] (spec_line line)) (this', A') ∧
    same_lazy this this'.
Proof.
  intros (m & Hm & Hok & Hvals & Hinj & Hnames & Hlen & Hold).
  simpl in Hm, Hok, Hvals, Hnames, Hlen, Hold.
  rewrite parseLine_spec. destruct (spec_line line) as [[nm val]|]; simpl.
  2:{ rewrite app_nil_r. do 2 eexists. split; [done|]. split; [|done]. by exists m. }
  rewrite headers_maybeSet, Hm. simpl.
  set (key := toLowerCase nm).
  pose proof (Hvals key) as Hkey.
  destruct (JsMap.get m key) as [r|] eqn:Hg.
  - destruct Hkey as [Hr HAr].
    unfold push. rewrite HAr. simpl.
    assert (maybeSetNormalizedName nm key this = this) as Hsame.
    { apply names_maybeSet_present. by eapply maps_ok_get_names_Some. }
    rewrite Hsame.
    destruct (maps_ok_get _ _ _ _ _ Hok Hg) as (l & Hl & Hlne).
    assert (l = spec_values es key) as -> by congruence.
    do 2 eexists. split; [done|]. split; [|done].
    exists m. simpl. split; [done|]. split.
    { eapply maps_ok_grows; [|done]. by apply grows_push. }
    split.
    { intros k. specialize (Hvals k). rewrite spec_values_snoc. fold key.
      destruct (JsMap.get m k) as [r'|] eqn:Hk.
      - destruct Hvals as [Hr' HAr']. split; [done|].
        destruct (String.eqb_spec key k) as [<-|Hne].
        + assert (r' = r) as -> by congruence.
          rewrite list_lookup_insert_eq; [done|by eapply lookup_lt_Some].
        + rewrite app_nil_r. rewrite list_lookup_insert_ne; [done|].
          intros <-. apply Hne. by eapply Hinj.
      - destruct (String.eqb_spec key k) as [<-|Hne]; [congruence|].
        by rewrite app_nil_r. }
    split; [done|]. split.
    { rewrite spec_names_snoc. simpl. fold key.
      destruct (spec_values es key); [done|]. by rewrite app_nil_r. }
    split; [by rewrite length_insert|].
    intros r' Hr'. rewrite list_lookup_insert_ne by lia. by apply Hold.
  - assert (JsMap.get (normalizedNames this) key = None) as Hn
      by (by eapply maps_ok_get_names).
    do 2 eexists. split; [done|]. split; [|apply lazy_maybeSet].
    exists (JsMap.set m key (length A)). simpl. split; [done|]. split.
    { apply maps_ok_set; [eapply maps_ok_grows; [apply grows_alloc|done]|].
      eexists. split; [apply lookup_fresh|done]. }
    split.
    { intros k. specialize (Hvals k). rewrite spec_values_snoc. fold key.
      destruct (String.eqb_spec key k) as [<-|Hne].
      - rewrite JsMapFacts.get_set_eq. split; [done|].
        rewrite lookup_fresh, Hkey. done.
      - rewrite JsMapFacts.get_set_ne by done. rewrite app_nil_r.
        destruct (JsMap.get m k) as [r'|] eqn:Hk; [|done].
        destruct Hvals as [Hr' HAr']. split; [done|].
        rewrite lookup_app_l; [done|by eapply lookup_lt_Some]. }
    split.
    { intros k1 k2 r.
      destruct (String.eqb_spec key k1) as [<-|Hne1];
        destruct (String.eqb_spec key k2) as [<-|Hne2]; [done|..].
      - rewrite JsMapFacts.get_set_eq, JsMapFacts.get_set_ne by done.
        intros [= <-] Hk2. pose proof (Hvals k2) as H2. rewrite Hk2 in H2.
        destruct H2 as [_ H2]. apply lookup_lt_Some in H2. lia.
      - rewrite JsMapFacts.get_set_eq, JsMapFacts.get_set_ne by done.
        intros Hk1 [= <-]. pose proof (Hvals k1) as H1. rewrite Hk1 in H1.
        destruct H1 as [_ H1]. apply lookup_lt_Some in H1. lia.
      - rewrite !JsMapFacts.get_set_ne by done. apply Hinj. }
    split.
    { rewrite names_maybeSet_absent by done. unfold JsMap.values in *.
      rewrite map_app, Hnames, spec_names_snoc. simpl. fold key. by rewrite Hkey. }
    rewrite length_app. split; [lia|].
    intros r Hr. rewrite lookup_app_l by lia. by apply Hold.
Qed.

Lemma omap_cons_app {X Y} (f : X → option Y) x (l : list X) :
  omap f (x :: l) = from_option (λ e, [e]) [] (f x) ++ omap f l.
Proof. simpl. by destruct (f x). Qed.

Lemma lines_parsed A0 lines es this A :
  parsed A0 es (this, A) →
  ∃ this' A', forEachM parseLine lines (this, A) = Some (this', A') ∧
    parsed A0 (es ++ omap spec_line lines) (this', A') ∧ same_lazy this this'.
Proof.
  revert es this A. induction lines as [|line lines IH]; intros es this A Hp.
  - simpl. rewrite app_nil_r. by do 2 eexists.
  - rewrite forEachM_cons, omap_cons_app, app_assoc.
    destruct (parseLine_parsed A0 es line this A Hp) as (this1 & A1 & -> & Hp1 & Hl1).
    simpl. destruct (IH _ _ _ Hp1) as (this2 & A2 & -> & Hp2 & Hl2).
    do 2 eexists. split; [done|]. split; [done|by eapply same_lazy_trans].
Qed.

Lemma lazyInit_string_parsed raw this A :
  normalizedNames this = [] →
  ∃ this' A', lazyInit_string raw (this, A) = Some (this', A') ∧
    parsed A (spec_entries raw) (this', A') ∧ same_lazy this this'.
Proof.
  intros Hn. unfold lazyInit_string.
  destruct (lines_parsed A (split raw LF) [] (with_headers JsMap.empty this) A)
    as (this' & A' & -> & Hp & Hl).
  - exists JsMap.empty. simpl. rewrite Hn. split; [done|].
    split; [apply maps_ok_empty|]. repeat split; done.
  - by do 2 eexists.
Qed.

Lemma parsed_local_ok A0 es st : parsed A0 es st → local_ok st.
Proof. intros (m & ? & ? & _). by exists m. Qed.

Lemma parsed_grows A0 es st : parsed A0 es st → grows A0 st.2.
Proof.
  intros (m & _ & _ & _ & _ & _ & Hlen & Hold). split; [done|].
  intros r l Hr. exists []. rewrite app_nil_r. split; [|done].
  rewrite Hold; [done|by eapply lookup_lt_Some].
Qed.

(** ** Records *)

Lemma maybeSet_with_headers nm key m this :
  maybeSetNormalizedName nm key (with_headers m this) =
    with_headers m (maybeSetNormalizedName nm key this).
Proof. unfold maybeSetNormalizedName. simpl. by destruct (negb _). Qed.

Lemma recordEntry_ok nv this A :
  local_ok (this, A) → value_ok A nv.2 →
  ∃ this' A', recordEntry nv (this, A) = Some (this', A') ∧
    local_ok (this', A') ∧ grows A A' ∧ same_lazy this this'.
Proof.
  intros (m & Hm & Hok) Hv. simpl in Hm, Hok. destruct nv as [nm v]. simpl in Hv.
  assert (∃ items, valueItems A v = Some items) as [items Hitems].
  { destruct v as [s|r]; simpl; [eauto|]. by apply lookup_lt_is_Some_2. }
  destruct (toArray_spec A v items Hitems) as (val & A1 & HtA & Hval & Hlen & Hold & Hnew).
  assert (grows A A1) as Hg.
  { split; [done|]. intros r l Hr. exists []. rewrite app_nil_r. split; [|done].
    rewrite Hold; [done|by eapply lookup_lt_Some]. }
  unfold recordEntry. rewrite HtA, Hval. simpl.
  destruct items as [|x items]; simpl.
  - do 2 eexists. split; [done|]. split; [|done].
    exists m. split; [done|]. by eapply maps_ok_grows.
  - rewrite Hm. simpl. do 2 eexists. split; [done|]. split; [|split; [done|]].
    + rewrite maybeSet_with_headers. eexists. split; [done|]. simpl.
      apply maps_ok_set; [by eapply maps_ok_grows|]. by eexists.
    + rewrite maybeSet_with_headers.
      eapply same_lazy_trans; [apply lazy_maybeSet|apply with_headers_lazy].
Qed.

Lemma lazyInit_record_ok rec this A :
  normalizedNames this = [] → record_ok A rec →
  ∃ this' A', lazyInit_record rec (this, A) = Some (this', A') ∧
    local_ok (this', A') ∧ grows A A' ∧ same_lazy this this'.
Proof.
  intros Hn Hrec. unfold lazyInit_record.
  assert (local_ok (with_headers JsMap.empty this, A)) as Hok.
  { exists JsMap.empty. simpl. rewrite Hn. split; [done|apply maps_ok_empty]. }
  assert (same_lazy this (with_headers JsMap.empty this)) as Hl by done.
  revert Hok Hl. generalize (with_headers JsMap.empty this). revert A Hrec.
  induction rec as [|nv rec IH]; intros A Hrec this0 Hok Hl.
  - simpl. do 2 eexists. split; [done|]. split; [done|]. split; [apply grows_refl|done].
  - apply Forall_cons in Hrec as [Hv Hrec]. rewrite forEachM_cons.
    destruct (recordEntry_ok nv this0 A Hok Hv) as (this1 & A1 & -> & Hok1 & Hg1 & Hl1).
    simpl. destruct (IH A1 (record_ok_grows _ _ _ Hg1 Hrec) this1 Hok1)
      as (this2 & A2 & -> & Hok2 & Hg2 & Hl2); [by eapply same_lazy_trans|].
    do 2 eexists. split; [done|]. split; [done|]. split; [by eapply grows_trans|done].
Qed.

(** ** Copying from the parent *)

Lemma get_app {V} (m1 m2 : JsMap.t V) k :
  JsMap.get (m1 ++ m2) k =
    match JsMap.get m1 k with Some v => Some v | None => JsMap.get m2 k end.
Proof.
  induction m1 as [|[k' v'] m1 IH]; simpl; [done|].
  by destruct (String.eqb k' k).
Qed.

Lemma copyEntry_eq other key this A :
  copyEntry other key (this, A) =
    (om ← headers other;
     m ← headers this;
     r ← JsMap.get om key;
     n ← JsMap.get (normalizedNames other) key;
     Some (with_normalizedNames (JsMap.set (normalizedNames this) key n)
             (with_headers (JsMap.set m key r) this), A)).
Proof. done. Qed.

Lemma copy_loop other om pm sm pn sn this A :
  headers other = Some om → om = pm ++ sm → normalizedNames other = pn ++ sn →
  JsMap.keys pm = JsMap.keys pn → JsMap.keys sm = JsMap.keys sn →
  NoDup (JsMap.keys om) →
  forEachM (copyEntry other) (JsMap.keys sm)
    (mkHttpHeaders (Some pm) pn (lazyInit this) (lazyUpdate this), A) =
  Some (mkHttpHeaders (Some om) (normalizedNames other) (lazyInit this) (lazyUpdate this), A).
Proof.
  intros Hom -> Hon. revert pm pn sn Hon Hom.
  induction sm as [|[k r] sm IH]; intros pm pn sn Hon Hom Hkp Hks Hnd.
  - destruct sn; [|done]. simpl. by rewrite Hon, !app_nil_r.
  - destruct sn as [|[k' nmv] sn]; [done|]. simpl in Hks. injection Hks as <- Hks.
    simpl JsMap.keys. rewrite forEachM_cons.
    unfold JsMap.keys in Hnd. rewrite map_app in Hnd. simpl in Hnd.
    apply NoDup_app in Hnd as (Hnd1 & Hnd2 & Hnd3).
    assert (k ∉ JsMap.keys pm) as Hk.
    { intros Hin. apply (Hnd2 k Hin). left. }
    assert (JsMap.get pm k = None) as Hgm by (by apply JsMapFacts.get_None_keys).
    assert (JsMap.get pn k = None) as Hgn.
    { apply JsMapFacts.get_None_keys. by rewrite <- Hkp. }
    rewrite copyEntry_eq, Hom. simpl.
    rewrite get_app, Hgm. simpl. rewrite String.eqb_refl. simpl.
    rewrite Hon, get_app, Hgn. simpl. rewrite String.eqb_refl. simpl.
    rewrite !JsMapFacts.set_absent by done.
    specialize (IH (pm ++ [(k, r)]) (pn ++ [(k, nmv)]) sn).
    rewrite <- !app_assoc in IH. simpl in IH.
    unfold with_normalizedNames, with_headers. simpl.
    etrans; [apply IH; [done|done| |done|]|by rewrite Hon].
    + unfold JsMap.keys. rewrite !map_app. simpl. by f_equal.
    + unfold JsMap.keys. rewrite map_app. simpl.
      apply NoDup_app. done.
Qed.

Lemma copy_all other om this A :
  headers other = Some om → maps_ok A om (normalizedNames other) →
  headers this = Some [] → normalizedNames this = [] →
  forEachM (copyEntry other) (JsMap.keys om) (this, A) =
    Some (with_normalizedNames (normalizedNames other) (with_headers om this), A).
Proof.
  intros Hom (Hk & Hnd & _) Hh Hn.
  destruct this as [hh nn li lu]. simpl in Hh, Hn. subst.
  apply (copy_loop other om [] om [] (normalizedNames other)
           (mkHttpHeaders (Some []) [] li lu) A); done.
Qed.

(** ** The end of [init] *)

Lemma finishInit_eq this A :
  finishInit (this, A) =
    ('(h, A') ← forEachM applyUpdate (default [] (lazyUpdate this))
                  (with_lazyInit LNull this, A);
     Some (with_lazyUpdate None h, A')).
Proof.
  unfold finishInit. destruct this as [hh nn li [us|]]; simpl; done.
Qed.

Lemma finishInit_ok this A :
  local_ok (this, A) → updates_ok A (lazyUpdate this) →
  ∃ this' A', finishInit (this, A) = Some (this', A') ∧
    local_ok (this', A') ∧ grows A A' ∧
    lazyInit this' = LNull ∧ lazyUpdate this' = None.
Proof.
  intros Hok Hus. rewrite finishInit_eq.
  destruct (forEachM_applyUpdate_ok (default [] (lazyUpdate this))
              (with_lazyInit LNull this) A) as (h & A' & -> & Hok' & Hg & Hl & _);
    [by destruct Hok as (m & ? & ?); exists m|done|].
  simpl. do 2 eexists. split; [done|]. split.
  { destruct Hok' as (m & ? & ?). by exists m. }
  split; [done|]. simpl. split; [|done]. by rewrite <- Hl.
Qed.

(** ** The store *)

Lemma on_this_eq this body σ h h' A' :
  objects σ !! this = Some h → body (h, arrays σ) = Some (h', A') →
  on_this this body σ = Some (mkHeap A' (<[this := h']> (objects σ))).
Proof. intros H1 H2. unfold on_this. rewrite H1. simpl. by rewrite H2. Qed.

Lemma finish_step this h1 A1 objs :
  (∀ o h, o ≠ this → objs !! o = Some h → obj_ok A1 o h) →
  this < length objs → local_ok (h1, A1) → updates_ok A1 (lazyUpdate h1) →
  ∃ h2 A2,
    finishInit (h1, A1) = Some (h2, A2) ∧
    on_this this finishInit (mkHeap A1 (<[this := h1]> objs)) =
      Some (mkHeap A2 (<[this := h2]> objs)) ∧
    wf (mkHeap A2 (<[this := h2]> objs)) ∧ grows A1 A2 ∧ lazyInit h2 = LNull.
Proof.
  intros Hothers Hlt Hok Hus.
  destruct (finishInit_ok h1 A1 Hok Hus) as (h2 & A2 & Hfin & Hok2 & Hg & Hli & Hlu).
  exists h2, A2. split; [done|]. split.
  { erewrite on_this_eq; [|simpl; by apply list_lookup_insert_eq|simpl; exact Hfin].
    simpl. by rewrite list_insert_insert_eq. }
  split; [|done]. intros o h. simpl.
  destruct (decide (o = this)) as [->|Hne].
  - rewrite list_lookup_insert_eq by done. intros [= <-].
    unfold obj_ok. rewrite Hli. split; [done|]. exact Hok2.
  - rewrite list_lookup_insert_ne by done. intros Ho.
    eapply obj_ok_grows; [exact Hg|]. by apply Hothers.
Qed.

Lemma init_ok fuel : ∀ σ this,
  wf σ → this < length (objects σ) → this < fuel →
  ∃ σ', init fuel this σ = Some σ' ∧ wf σ' ∧
    grows (arrays σ) (arrays σ') ∧
    length (objects σ') = length (objects σ) ∧
    (∀ o, this < o → objects σ' !! o = objects σ !! o) ∧
    ∃ h, objects σ' !! this = Some h ∧ lazyInit h = LNull.
Proof.
  induction fuel as [|fuel IH]; intros σ this Hwf Hlt Hfuel; [lia|].
  destruct (lookup_lt_is_Some_2 _ _ Hlt) as [h Hh].
  pose proof (Hwf this h Hh) as Hobj. unfold obj_ok in Hobj.
  cbn [init]. rewrite Hh. simpl.
  assert (∀ A1, grows (arrays σ) A1 →
            ∀ o h, o ≠ this → objects σ !! o = Some h → obj_ok A1 o h) as Hothers.
  { intros A1 Hg o h0 _ Ho. eapply obj_ok_grows; [exact Hg|]. by apply Hwf. }
  destruct (lazyInit h) as [|other|raw|rec] eqn:Hli.
  - exists σ. split; [done|]. split; [done|]. split; [apply grows_refl|].
    split; [done|]. split; [done|]. eauto.
  - destruct Hobj as (Hpar & Hhd & Hnm & Hus).
    destruct (IH σ other Hwf) as (σa & Hinit & Hwfa & Hga & Hlena & Hframe & oh & Hoh & Hohli);
      [lia|lia|].
    unfold copyFrom. rewrite Hinit. simpl. rewrite Hoh. simpl.
    pose proof (Hwfa other oh Hoh) as Hoobj. unfold obj_ok in Hoobj.
    rewrite Hohli in Hoobj. destruct Hoobj as (_ & om & Hom & Hmaps).
    rewrite Hom. simpl.
    assert (objects σa !! this = Some h) as Hha by (by rewrite Hframe).
    erewrite on_this_eq; [|exact Hha|by apply copy_all].
    simpl.
    destruct (finish_step this
                (with_normalizedNames (normalizedNames oh) (with_headers om h))
                (arrays σa) (objects σa))
      as (h2 & A2 & _ & -> & Hwf2 & Hg2 & Hli2).
    + intros o h0 _ Ho. by apply Hwfa.
    + lia.
    + by exists om.
    + simpl. by eapply updates_ok_grows.
    + eexists. split; [done|]. split; [done|]. simpl.
      split; [by eapply grows_trans|]. rewrite length_insert.
      split; [done|]. split.
      * intros o Ho. rewrite list_lookup_insert_ne by lia. apply Hframe. lia.
      * exists h2. split; [|done]. apply list_lookup_insert_eq. lia.
  - destruct Hobj as (Hlu & Hnm).
    destruct (lazyInit_string_parsed raw h (arrays σ) Hnm) as (h1 & A1 & Hrun & Hp & Hl).
    erewrite on_this_eq; [|exact Hh|exact Hrun]. simpl.
    pose proof (parsed_grows _ _ _ Hp) as Hg1. simpl in Hg1.
    destruct (finish_step this h1 A1 (objects σ)) as (h2 & A2 & _ & -> & Hwf2 & Hg2 & Hli2).
    + by apply Hothers.
    + done.
    + by eapply parsed_local_ok.
    + destruct Hl as [_ <-]. rewrite Hlu. constructor.
    + eexists. split; [done|]. split; [done|]. simpl.
      split; [by eapply grows_trans|]. rewrite length_insert.
      split; [done|]. split.
      * intros o Ho. rewrite list_lookup_insert_ne by lia. done.
      * exists h2. split; [|done]. by apply list_lookup_insert_eq.
  - destruct Hobj as (Hlu & Hnm & Hrec).
    destruct (lazyInit_record_ok rec h (arrays σ) Hnm Hrec)
      as (h1 & A1 & Hrun & Hok1 & Hg1 & Hl).
    erewrite on_this_eq; [|exact Hh|exact Hrun]. simpl.
    destruct (finish_step this h1 A1 (objects σ)) as (h2 & A2 & _ & -> & Hwf2 & Hg2 & Hli2).
    + by apply Hothers.
    + done.
    + done.
    + destruct Hl as [_ <-]. rewrite Hlu. constructor.
    + eexists. split; [done|]. split; [done|]. simpl.
      split; [by eapply grows_trans|]. rewrite length_insert.
      split; [done|]. split.
      * intros o Ho. rewrite list_lookup_insert_ne by lia. done.
      * exists h2. split; [|done]. by apply list_lookup_insert_eq.
Qed.

Lemma init_this_ok σ this :
  wf σ → this < length (objects σ) →
  ∃ σ' h m, init_this this σ = Some σ' ∧ wf σ' ∧
    objects σ' !! this = Some h ∧ lazyInit h = LNull ∧ lazyUpdate h = None ∧
    headers h = Some m ∧ maps_ok (arrays σ') m (normalizedNames h) ∧
    grows (arrays σ) (arrays σ') ∧ length (objects σ') = length (objects σ).
Proof.
  intros Hwf Hlt. unfold init_this.
  destruct (init_ok (S (length (objects σ))) σ this Hwf Hlt)
    as (σ' & Hinit & Hwf' & Hg & Hlen & _ & h & Hh & Hli); [lia|].
  pose proof (Hwf' this h Hh) as Hobj. unfold obj_ok in Hobj. rewrite Hli in Hobj.
  destruct Hobj as (Hlu & m & Hm & Hmaps).
  exists σ', h, m. done.
Qed.

Lemma wf_alloc σ l : wf σ → wf (mkHeap (arrays σ ++ [l]) (objects σ)).
Proof.
  intros Hwf o h Ho. simpl in *.
  eapply obj_ok_grows; [apply grows_alloc|]. by apply Hwf.
Qed.

Lemma wf_new σ h :
  wf σ → obj_ok (arrays σ) (length (objects σ)) h →
  wf (mkHeap (arrays σ) (objects σ ++ [h])).
Proof.
  intros Hwf Hh o h0. simpl. intros Ho.
  apply lookup_app_Some in Ho as [Ho|[Hlen Ho]]; [by apply Hwf|].
  apply list_lookup_singleton_Some in Ho as [Ho <-].
  replace o with (length (objects σ)) by lia. done.
Qed.

Lemma construct_ok A o input :
  match input with Some (IRecord rec) => record_ok A rec | _ => True end →
  obj_ok A o (construct input).
Proof.
  intros Hin. unfold construct, obj_ok.
  destruct input as [[raw|rec]|]; simpl.
  - destruct (String.eqb raw ""); simpl; [|done].
    split; [done|]. eexists. split; [done|]. apply maps_ok_empty.
  - done.
  - split; [done|]. eexists. split; [done|]. apply maps_ok_empty.
Qed.

Lemma clone_ok σ this u :
  wf σ → this < length (objects σ) → update_ok (arrays σ) u →
  ∃ σ', clone this u σ = Some (length (objects σ), σ') ∧ wf σ' ∧
    arrays σ' = arrays σ.
Proof.
  intros Hwf Hlt Hu. destruct (lookup_lt_is_Some_2 _ _ Hlt) as [h Hh].
  unfold clone. rewrite Hh. simpl. eexists. split; [done|]. split; [|done].
  apply wf_new; [done|]. pose proof (Hwf this h Hh) as Hobj.
  unfold obj_ok in *. simpl.
  assert (updates_ok (arrays σ) (Some (default [] (lazyUpdate h) ++ [u]))) as Hus.
  { unfold updates_ok. simpl. apply Forall_app. split; [|by constructor].
    destruct (lazyInit h); [destruct Hobj as [-> _]|destruct Hobj as (_ & _ & _ & ?)
                           |destruct Hobj as [-> _]|destruct Hobj as [-> _]];
      simpl; done. }
  destruct (lazyInit h) as [|other|raw|rec]; simpl; try done.
  destruct Hobj as (? & _). split; [lia|done].
Qed.

Lemma call_update_ok σ nm v o :
  match o with
  | OpD => from_option (value_ok (arrays σ)) True v
  | _ => ∃ x, v = Some x ∧ value_ok (arrays σ) x
  end →
  update_ok (arrays σ) (mkUpdate nm v o).
Proof. unfold update_ok. simpl. by destruct o. Qed.

Lemma mapM_calls_ok A (m : JsMap.t aref) (n : JsMap.t string) :
  maps_ok A m n →
  is_Some (mapM (λ key, nm ← JsMap.get n key; r ← JsMap.get m key; Some (nm, r))
             (JsMap.keys n)).
Proof.
  intros (Hk & _ & _). apply mapM_is_Some. apply Forall_forall. intros key Hkey.
  simpl. destruct (JsMapFacts.keys_get n key Hkey) as [nm ->]. simpl.
  rewrite <- Hk in Hkey. destruct (JsMapFacts.keys_get m key Hkey) as [r ->]. simpl.
  eauto.
Qed.

(** Every call on a well-formed store returns, and leaves the store well
    formed. *)
Lemma exec_ok σ c :
  wf σ → call_ok σ c → ∃ r σ', exec c σ = Some (r, σ') ∧ wf σ'.
Proof.
  intros Hwf Hc. destruct c as [l|input|h nm|h nm|h|h nm|h|h nm v|h nm v|h nm v]; simpl in *.
  - do 2 eexists. split; [done|]. by apply wf_alloc.
  - do 2 eexists. split; [done|]. apply wf_new; [done|].
    apply construct_ok. by destruct input as [[|]|].
  - destruct (init_this_ok σ h Hwf Hc) as (σ' & o & m & Hi & Hwf' & Ho & _ & _ & Hm & _).
    unfold has. rewrite Hi. simpl. rewrite Ho. simpl. rewrite Hm. simpl. eauto.
  - destruct (init_this_ok σ h Hwf Hc) as (σ' & o & m & Hi & Hwf' & Ho & _ & _ & Hm & Hmaps & _).
    unfold get. rewrite Hi. simpl. rewrite Ho. simpl. rewrite Hm. simpl.
    destruct (JsMap.get m (toLowerCase nm)) as [r|] eqn:Hg; [|eauto].
    destruct (maps_ok_get _ _ _ _ _ Hmaps Hg) as (l & -> & _). simpl. eauto.
  - destruct (init_this_ok σ h Hwf Hc) as (σ' & o & m & Hi & Hwf' & Ho & _).
    unfold keys. rewrite Hi. simpl. rewrite Ho. simpl. eauto.
  - destruct (init_this_ok σ h Hwf Hc) as (σ' & o & m & Hi & Hwf' & Ho & _ & _ & Hm & _).
    unfold getAll. rewrite Hi. simpl. rewrite Ho. simpl. rewrite Hm. simpl. eauto.
  - destruct (init_this_ok σ h Hwf Hc) as (σ' & o & m & Hi & Hwf' & Ho & _ & _ & Hm & Hmaps & _).
    unfold forEach. rewrite Hi. simpl. rewrite Ho. simpl. rewrite Hm. simpl.
    destruct (mapM_calls_ok _ _ _ Hmaps) as [calls ->]. simpl. eauto.
  - destruct Hc as [Hh Hv].
    destruct (clone_ok σ h (mkUpdate nm (Some v) OpA) Hwf Hh) as (σ' & Hcl & Hwf' & _).
    { apply (call_update_ok σ). eauto. }
    unfold append. rewrite Hcl. simpl. eauto.
  - destruct Hc as [Hh Hv].
    destruct (clone_ok σ h (mkUpdate nm (Some v) OpS) Hwf Hh) as (σ' & Hcl & Hwf' & _).
    { apply (call_update_ok σ). eauto. }
    unfold set. rewrite Hcl. simpl. eauto.
  - destruct Hc as [Hh Hv].
    destruct (clone_ok σ h (mkUpdate nm v OpD) Hwf Hh) as (σ' & Hcl & Hwf' & _).
    { by apply (call_update_ok σ). }
    unfold delete. rewrite Hcl. simpl. eauto.
Qed.

Lemma wf_empty : wf empty_heap.
Proof. intros o h. simpl. by rewrite lookup_nil. Qed.

Lemma reachable_wf σ : reachable σ → wf σ.
Proof.
  induction 1 as [|σ c r σ' _ IH Hc Hex]; [apply wf_empty|].
  destruct (exec_ok σ c IH Hc) as (r' & σ'' & Hex' & Hwf).
  rewrite Hex in Hex'. by injection Hex' as <- <-.
Qed.

(** ** Methods read the maps of [this] only *)

Lemma same_maps_refl h : same_maps h h.
Proof. done. Qed.

Lemma same_maps_sym h1 h2 : same_maps h1 h2 → same_maps h2 h1.
Proof. intros [? ?]. by split. Qed.

Lemma same_maps_trans h1 h2 h3 : same_maps h1 h2 → same_maps h2 h3 → same_maps h1 h3.
Proof. intros [? ?] [? ?]. split; congruence. Qed.

Lemma applyUpdate_relabel u hh nn li1 lu1 li2 lu2 A :
  applyUpdate u (mkHttpHeaders hh nn li2 lu2, A) =
    (λ st : Local, (mkHttpHeaders (headers st.1) (normalizedNames st.1) li2 lu2, st.2))
      <$> applyUpdate u (mkHttpHeaders hh nn li1 lu1, A).
Proof.
  unfold applyUpdate, maybeSetNormalizedName, with_headers, with_normalizedNames.
  simpl. destruct (op u); simpl.
  - destruct (value u) as [v|]; simpl; [|done].
    destruct (toArray v A) as [val A1]. destruct (A1 !! val) as [items|]; simpl; [|done].
    destruct (length items =? 0); simpl; [done|].
    destruct (negb (JsMap.has nn (toLowerCase (name u)))); simpl;
      (destruct hh as [m|]; simpl; [|done]);
      (destruct (JsMap.get m (toLowerCase (name u))); simpl);
      match goal with |- context [push ?a ?b ?c] => destruct (push a b c); simpl; done end.
  - destruct (value u) as [v|]; simpl; [|done].
    destruct (toArray v A) as [val A1]. destruct (A1 !! val) as [items|]; simpl; [|done].
    destruct (length items =? 0); simpl; [done|].
    destruct (negb (JsMap.has nn (toLowerCase (name u)))); simpl;
      (destruct hh as [m|]; simpl; [|done]);
      match goal with |- context [push ?a ?b ?c] => destruct (push a b c); simpl; done end.
  - destruct hh as [m|]; simpl; [|done].
    destruct (truthy (value u)) as [toDelete|]; simpl; [|done].
    destruct (JsMap.get m (toLowerCase (name u))) as [existing|]; simpl; [|done].
    destruct (A !! existing) as [l|]; simpl; [|done].
    destruct (keepValue toDelete A) as [keep|]; simpl; [|done].
    destruct (length (List.filter keep l) =? 0); done.
Qed.

Lemma applyUpdate_same_maps u h1 h2 A h1' A' :
  same_maps h1 h2 → applyUpdate u (h1, A) = Some (h1', A') →
  ∃ h2', applyUpdate u (h2, A) = Some (h2', A') ∧
    same_maps h1' h2' ∧ same_lazy h2 h2'.
Proof.
  intros [Hh Hn] H. destruct h1 as [hh nn li1 lu1], h2 as [hh2 nn2 li2 lu2].
  simpl in Hh, Hn. subst hh2 nn2.
  rewrite (applyUpdate_relabel u hh nn li1 lu1 li2 lu2), H. simpl.
  eexists. split; [done|]. done.
Qed.

Lemma forEachM_applyUpdate_same_maps us h1 h2 A h1' A' :
  same_maps h1 h2 → forEachM applyUpdate us (h1, A) = Some (h1', A') →
  ∃ h2', forEachM applyUpdate us (h2, A) = Some (h2', A') ∧
    same_maps h1' h2' ∧ same_lazy h2 h2'.
Proof.
  revert h1 h2 A. induction us as [|u us IH]; intros h1 h2 A Hs.
  - simpl. intros [= <- <-]. by exists h2.
  - rewrite !forEachM_cons. intros H.
    apply bind_Some in H as ([hx Ax] & Hu & H).
    destruct (applyUpdate_same_maps u h1 h2 A hx Ax Hs Hu) as (hy & -> & Hs' & Hl).
    simpl. destruct (IH hx hy Ax Hs' H) as (h2' & -> & Hs2 & Hl2).
    exists h2'. split; [done|]. split; [done|]. by eapply same_lazy_trans.
Qed.

(** ** Fuel and unrelated instances *)

Lemma init_fuel_mono f : ∀ f' this σ σ',
  init f this σ = Some σ' → f ≤ f' → init f' this σ = Some σ'.
Proof.
  induction f as [|f IH]; intros f' this σ σ' H Hle; [done|].
  destruct f' as [|f']; [lia|]. cbn [init] in *.
  destruct (objects σ !! this) as [h|]; simpl in *; [|done].
  destruct (lazyInit h); try done.
  unfold copyFrom in *.
  apply bind_Some in H as (σ1 & H1 & H2).
  apply bind_Some in H1 as (σa & Ha & H1).
  rewrite (IH f' _ _ _ Ha) by lia. simpl. rewrite H1. simpl. done.
Qed.

Lemma on_this_ext this body σ σ' extra :
  on_this this body σ = Some σ' →
  on_this this body (mkHeap (arrays σ) (objects σ ++ extra)) =
    Some (mkHeap (arrays σ') (objects σ' ++ extra)).
Proof.
  unfold on_this. destruct (objects σ !! this) as [h|] eqn:E; simpl; [|done].
  rewrite (lookup_app_l_Some _ _ _ _ E). simpl.
  destruct (body (h, arrays σ)) as [[h' A']|]; simpl; [|done].
  intros [= <-]. simpl. rewrite insert_app_l by (by eapply lookup_lt_Some). done.
Qed.

Lemma init_ext f : ∀ this σ σ' extra,
  init f this σ = Some σ' →
  init f this (mkHeap (arrays σ) (objects σ ++ extra)) =
    Some (mkHeap (arrays σ') (objects σ' ++ extra)).
Proof.
  induction f as [|f IH]; intros this σ σ' extra H; [done|].
  cbn [init] in *.
  destruct (objects σ !! this) as [h|] eqn:E; simpl in *; [|done].
  rewrite (lookup_app_l_Some _ _ _ _ E). simpl.
  destruct (lazyInit h) as [|other|raw|rec].
  - injection H as <-. by destruct σ.
  - unfold copyFrom in *.
    apply bind_Some in H as (σ1 & H1 & H2).
    apply bind_Some in H1 as (σa & Ha & H1).
    rewrite (IH _ _ _ extra Ha). simpl.
    destruct (objects σa !! other) as [oh|] eqn:Eo; simpl in *; [|done].
    rewrite (lookup_app_l_Some _ _ _ _ Eo). simpl.
    destruct (headers oh) as [om|]; simpl in *; [|done].
    rewrite (on_this_ext _ _ _ _ extra H1). simpl.
    by apply (on_this_ext _ _ _ _ extra) in H2.
  - apply bind_Some in H as (σ1 & H1 & H2).
    rewrite (on_this_ext _ _ _ _ extra H1). simpl.
    by apply (on_this_ext _ _ _ _ extra) in H2.
  - apply bind_Some in H as (σ1 & H1 & H2).
    rewrite (on_this_ext _ _ _ _ extra H1). simpl.
    by apply (on_this_ext _ _ _ _ extra) in H2.
Qed.

(** ** Reading a clone *)

Lemma lookup_snoc {X} (l : list X) x : (l ++ [x]) !! length l = Some x.
Proof. by apply list_lookup_middle. Qed.

Lemma insert_snoc {X} (l : list X) x y : <[length l := y]> (l ++ [x]) = l ++ [y].
Proof.
  replace (length l) with (length l + 0) by lia. by rewrite insert_app_r.
Qed.

(** The clone side of [init]: copy the parent's maps, replay the queue
    [us ++ [u]]. *)
Lemma clone_finish (objs : list HttpHeaders) c0 oh om A us u hstart hx Ax hh :
  headers c0 = Some [] → normalizedNames c0 = [] →
  lazyUpdate c0 = Some (us ++ [u]) →
  headers oh = Some om → maps_ok A om (normalizedNames oh) →
  headers hstart = Some om → normalizedNames hstart = normalizedNames oh →
  forEachM applyUpdate us (hstart, A) = Some (hx, Ax) →
  same_maps hx hh → local_ok (hh, Ax) → update_ok Ax u →
  ∃ hc' Ac hc,
    applyUpdate u (hh, Ax) = Some (hc', Ac) ∧
    (on_this (length objs) (forEachM (copyEntry oh) (JsMap.keys om))
       (mkHeap A (objs ++ [c0])) ≫= on_this (length objs) finishInit) =
      Some (mkHeap Ac (objs ++ [hc])) ∧
    same_maps hc' hc ∧ local_ok (hc', Ac) ∧ grows Ax Ac.
Proof.
  intros Hc0h Hc0n Hc0u Hom Hmaps Hsh Hsn Hrun Hsame Hok Hu.
  destruct (applyUpdate_ok u hh Ax Hok Hu) as (hc' & Ac & Happ & Hok' & Hg & _).
  set (c1 := with_normalizedNames (normalizedNames oh) (with_headers om c0)).
  assert (same_maps hstart (with_lazyInit LNull c1)) as Hs1 by (by split).
  destruct (forEachM_applyUpdate_same_maps us _ _ _ _ _ Hs1 Hrun) as (cx & Hcx & Hs2 & _).
  assert (same_maps hh cx) as Hs3.
  { eapply same_maps_trans; [apply same_maps_sym; exact Hsame|exact Hs2]. }
  destruct (applyUpdate_same_maps u _ _ _ _ _ Hs3 Happ) as (cy & Hcy & Hs4 & _).
  exists hc', Ac, (with_lazyUpdate None cy).
  split; [done|]. split; [|done].
  erewrite on_this_eq; [|simpl; apply lookup_snoc|simpl; by apply copy_all].
  simpl. rewrite insert_snoc.
  erewrite on_this_eq; [|simpl; apply lookup_snoc|].
  - simpl. by rewrite insert_snoc.
  - rewrite finishInit_eq. cbn [arrays lazyUpdate with_normalizedNames with_headers].
    rewrite Hc0u. change (default [] (Some (us ++ [u]))) with (us ++ [u]).
    rewrite forEachM_app. fold c1. rewrite Hcx.
    cbn [mbind option_bind]. rewrite forEachM_cons, Hcy. done.
Qed.

Lemma init_S fuel this σ :
  init (S fuel) this σ =
    (h ← objects σ !! this;
     match lazyInit h with
     | LNull => Some σ
     | LHeaders other =>
         σ ← copyFrom (init fuel) this other σ; on_this this finishInit σ
     | LString raw =>
         σ ← on_this this (lazyInit_string raw) σ; on_this this finishInit σ
     | LRecord rec =>
         σ ← on_this this (lazyInit_record rec) σ; on_this this finishInit σ
     end).
Proof. done. Qed.

(** Reading a clone for the first time applies the new update to a copy
    of what its receiver reads as. *)
Lemma clone_init σ this u :
  wf σ → this < length (objects σ) → update_ok (arrays σ) u →
  ∃ σh hh σ1 hc' σ2 hc,
    init_this this σ = Some σh ∧ objects σh !! this = Some hh ∧
    local_ok (hh, arrays σh) ∧ grows (arrays σ) (arrays σh) ∧
    clone this u σ = Some (length (objects σ), σ1) ∧
    applyUpdate u (hh, arrays σh) = Some (hc', arrays σ2) ∧
    init_this (length (objects σ)) σ1 = Some σ2 ∧
    objects σ2 !! length (objects σ) = Some hc ∧ same_maps hc' hc ∧
    local_ok (hc', arrays σ2).
Proof.
  intros Hwf Hlt Hu. destruct (lookup_lt_is_Some_2 _ _ Hlt) as [h Hh].
  pose proof (Hwf this h Hh) as Hobj. unfold obj_ok in Hobj.
  unfold clone. rewrite Hh. cbn [mbind option_bind].
  set (c0 := with_lazyUpdate _ _).
  assert (init_this (length (objects σ)) (mkHeap (arrays σ) (objects σ ++ [c0])) =
          init (S (S (length (objects σ)))) (length (objects σ))
            (mkHeap (arrays σ) (objects σ ++ [c0]))) as Hunf.
  { unfold init_this. simpl. rewrite length_app. simpl. by rewrite Nat.add_1_r. }
  destruct (lazyInit h) as [|p|raw|rec] eqn:Hli.
  2:{ (* the receiver is itself a clone that was never read *)
    destruct Hobj as (Hp & Hhd & Hnm & Hus).
    destruct (init_ok (length (objects σ)) σ p Hwf)
      as (σa & Hinit_p & Hwfa & Hga & Hlena & Hframe & oh & Hoh & Hohli); [lia|lia|].
    pose proof (Hwfa p oh Hoh) as Hoobj. unfold obj_ok in Hoobj.
    rewrite Hohli in Hoobj. destruct Hoobj as (_ & om & Hom & Hmaps).
    assert (objects σa !! this = Some h) as Hha by (by rewrite Hframe).
    set (h1 := with_normalizedNames (normalizedNames oh) (with_headers om h)).
    destruct (finish_step this h1 (arrays σa) (objects σa))
      as (h2 & A2 & Hfin & Hon & Hwf2 & Hg2 & Hli2).
    { intros o h0 _ Ho. by apply Hwfa. }
    { lia. }
    { by exists om. }
    { simpl. by eapply updates_ok_grows. }
    assert (init_this this σ = Some (mkHeap A2 (<[this := h2]> (objects σa)))) as Hinit.
    { unfold init_this. rewrite init_S, Hh. cbn [mbind option_bind]. rewrite Hli.
      unfold copyFrom. rewrite Hinit_p. cbn [mbind option_bind]. rewrite Hoh.
      cbn [mbind option_bind]. rewrite Hom. cbn [mbind option_bind].
      erewrite on_this_eq; [|exact Hha|by apply copy_all].
      cbn [mbind option_bind]. exact Hon. }
    assert (objects (mkHeap A2 (<[this := h2]> (objects σa))) !! this = Some h2) as Hh2.
    { simpl. apply list_lookup_insert_eq. lia. }
    pose proof (Hwf2 this h2 Hh2) as Hobj2. unfold obj_ok in Hobj2.
    rewrite Hli2 in Hobj2. destruct Hobj2 as (Hlu2 & m2 & Hm2 & Hmaps2).
    rewrite finishInit_eq in Hfin.
    apply bind_Some in Hfin as ([hx Ax] & Hrun & Hfin). injection Hfin as <- <-.
    destruct (clone_finish (objects σa) c0 oh om (arrays σa)
                (default [] (lazyUpdate h)) u (with_lazyInit LNull h1) hx Ax
                (with_lazyUpdate None hx))
      as (hc' & Ac & hc & Happ & Hrunc & Hsame & Hokc & Hgc); try done.
    { by exists m2. }
    { eapply update_ok_grows; [|exact Hu]. by eapply grows_trans. }
    exists (mkHeap Ax (<[this := with_lazyUpdate None hx]> (objects σa))),
      (with_lazyUpdate None hx), (mkHeap (arrays σ) (objects σ ++ [c0])),
      hc', (mkHeap Ac (objects σa ++ [hc])), hc.
    split; [done|]. split; [done|]. split; [by exists m2|].
    split; [by eapply grows_trans|]. split; [done|]. split; [done|].
    split.
    { rewrite Hunf, init_S. cbn [objects]. rewrite lookup_snoc.
      cbn [mbind option_bind]. simpl lazyInit.
      unfold copyFrom.
      rewrite (init_fuel_mono _ (S (length (objects σ))) _ _ _
                 (init_ext _ _ _ _ [c0] Hinit_p)) by lia.
      cbn [mbind option_bind objects arrays].
      rewrite (lookup_app_l_Some _ _ _ _ Hoh). cbn [mbind option_bind].
      rewrite Hom. cbn [mbind option_bind]. rewrite <- Hlena. exact Hrunc. }
    split; [|done]. cbn [objects]. rewrite <- Hlena. apply lookup_snoc. }
  all: destruct (init_this_ok σ this Hwf Hlt)
      as (σh & hh & m & Hinit & Hwfh & Hhh & Hlih & Hluh & Hm & Hmaps & Hg & Hlen).
  all: assert (lazyUpdate h = None) as Hlu by (by destruct Hobj as [? _]).
  all: destruct (clone_finish (objects σh) c0 hh m (arrays σh) [] u hh hh (arrays σh) hh)
      as (hc' & Ac & hc & Happ & Hrunc & Hsame & Hokc & Hgc);
    [done|done|by (simpl; rewrite Hlu)|done|done|done|done|done|done|by exists m
    |by eapply update_ok_grows| ].
  all: exists σh, hh, (mkHeap (arrays σ) (objects σ ++ [c0])), hc',
      (mkHeap Ac (objects σh ++ [hc])), hc.
  all: split; [done|]; split; [done|]; split; [by exists m|]; split; [done|];
    split; [done|]; split; [done|]; split; [|split; [|done]].
  all: try (cbn [objects]; rewrite <- Hlen; apply lookup_snoc).
  all: rewrite Hunf, init_S; cbn [objects]; rewrite lookup_snoc;
    cbn [mbind option_bind]; simpl lazyInit; unfold copyFrom;
    unfold init_this in Hinit;
    rewrite (init_ext _ _ _ _ [c0] Hinit); cbn [mbind option_bind objects arrays];
    rewrite (lookup_app_l_Some _ _ _ _ Hhh); cbn [mbind option_bind];
    rewrite Hm; cbn [mbind option_bind]; rewrite <- Hlen; exact Hrunc.
Qed.

(** ** Reads of an initialised instance *)

Lemma has_read o nm σ σ' h m :
  init_this o σ = Some σ' → objects σ' !! o = Some h → headers h = Some m →
  has o nm σ = Some (JsMap.has m (toLowerCase nm), σ').
Proof. intros Hi Ho Hm. unfold has. rewrite Hi. simpl. rewrite Ho. simpl. by rewrite Hm. Qed.

Lemma getAll_read o nm σ σ' h m :
  init_this o σ = Some σ' → objects σ' !! o = Some h → headers h = Some m →
  getAll o nm σ = Some (JsMap.get m (toLowerCase nm), σ').
Proof. intros Hi Ho Hm. unfold getAll. rewrite Hi. simpl. rewrite Ho. simpl. by rewrite Hm. Qed.

Lemma get_read o nm σ σ' h m :
  init_this o σ = Some σ' → objects σ' !! o = Some h → headers h = Some m →
  get o nm σ =
    match JsMap.get m (toLowerCase nm) with
    | Some r => l ← arrays σ' !! r; Some (head l, σ')
    | None => Some (None, σ')
    end.
Proof.
  intros Hi Ho Hm. unfold get. rewrite Hi. simpl. rewrite Ho. simpl. rewrite Hm. simpl.
  destruct (JsMap.get m (toLowerCase nm)) as [r|]; [|done].
  destruct (arrays σ' !! r) as [[|x l]|]; done.
Qed.

Lemma keys_read o σ σ' h :
  init_this o σ = Some σ' → objects σ' !! o = Some h →
  keys o σ = Some (JsMap.values (normalizedNames h), σ').
Proof. intros Hi Ho. unfold keys. rewrite Hi. simpl. by rewrite Ho. Qed.

Lemma forEach_read o σ σ' h m :
  init_this o σ = Some σ' → objects σ' !! o = Some h → headers h = Some m →
  forEach o σ =
    (calls ← mapM (λ key, n ← JsMap.get (normalizedNames h) key;
                          r ← JsMap.get m key; Some (n, r))
               (JsMap.keys (normalizedNames h));
     Some (calls, σ')).
Proof. intros Hi Ho Hm. unfold forEach. rewrite Hi. simpl. rewrite Ho. simpl. by rewrite Hm. Qed.

(** ** Construction from a raw header block *)

Lemma new_string_init σ raw :
  raw ≠ "" →
  ∃ h A, parsed (arrays σ) (spec_entries raw) (h, A) ∧
    init_this (length (objects σ)) (new_HttpHeaders (Some (IString raw)) σ).2 =
      Some (mkHeap A (objects σ ++ [h])).
Proof.
  intros Hne. unfold new_HttpHeaders, construct.
  destruct (String.eqb_spec raw "") as [|_]; [done|]. cbn [snd].
  set (c0 := mkHttpHeaders None JsMap.empty (LString raw) None).
  destruct (lazyInit_string_parsed raw c0 (arrays σ) eq_refl) as (h1 & A1 & Hrun & Hp & Hl).
  exists (with_lazyInit LNull h1), A1. split.
  { destruct Hp as (m & Hp). by exists m. }
  unfold init_this. rewrite init_S. cbn [objects]. rewrite lookup_snoc.
  cbn [mbind option_bind]. simpl lazyInit. cbv iota.
  erewrite on_this_eq; [|simpl; apply lookup_snoc|simpl; exact Hrun].
  cbn [mbind option_bind objects arrays]. rewrite insert_snoc.
  erewrite on_this_eq; [|simpl; apply lookup_snoc|].
  - simpl. by rewrite insert_snoc.
  - rewrite finishInit_eq. destruct Hl as [_ Hlu]. simpl in Hlu.
    cbn [with_lazyInit lazyUpdate]. rewrite <- Hlu. simpl.
    unfold with_lazyUpdate, with_lazyInit. simpl. by rewrite <- Hlu.
Qed.

Lemma new_string_reads σ raw nm :
  let '(h, σ1) := new_HttpHeaders (Some (IString raw)) σ in
  let vals := spec_values (spec_entries raw) (toLowerCase nm) in
  read_has h nm σ1 = Some (match vals with [] => false | _ => true end) ∧
  read_get h nm σ1 = Some (head vals) ∧
  read_getAll h nm σ1 = Some (match vals with [] => None | _ => Some vals end) ∧
  read_keys h σ1 = Some (spec_names [] (spec_entries raw)).
Proof.
  destruct (String.eqb_spec raw "") as [->|Hne].
  - unfold new_HttpHeaders.
    set (σ1 := mkHeap (arrays σ) (objects σ ++ [construct (Some (IString ""))])).
    assert (objects σ1 !! length (objects σ) = Some (construct (Some (IString "")))) as Hh
      by apply lookup_snoc.
    assert (init_this (length (objects σ)) σ1 = Some σ1) as Hinit.
    { unfold init_this. by rewrite init_S, Hh. }
    unfold read_has, read_get, read_getAll, read_keys.
    rewrite (has_read _ nm _ _ _ [] Hinit Hh), (get_read _ nm _ _ _ [] Hinit Hh),
      (getAll_read _ nm _ _ _ [] Hinit Hh), (keys_read _ _ _ _ Hinit Hh); done.
  - destruct (new_string_init σ raw Hne) as (h & A & Hp & Hinit).
    unfold new_HttpHeaders in *. cbn [snd] in Hinit.
    set (σ1 := mkHeap (arrays σ) (objects σ ++ [construct (Some (IString raw))])) in *.
    assert (objects (mkHeap A (objects σ ++ [h])) !! length (objects σ) = Some h) as Hh
      by apply lookup_snoc.
    destruct Hp as (m & Hm & Hok & Hvals & _ & Hnames & _). simpl in Hm, Hok, Hvals, Hnames.
    unfold read_has, read_get, read_getAll, read_keys.
    rewrite (has_read _ nm _ _ _ _ Hinit Hh Hm), (get_read _ nm _ _ _ _ Hinit Hh Hm),
      (getAll_read _ nm _ _ _ _ Hinit Hh Hm), (keys_read _ _ _ _ Hinit Hh).
    specialize (Hvals (toLowerCase nm)). unfold JsMap.has.
    destruct (JsMap.get m (toLowerCase nm)) as [r|] eqn:Hg.
    + destruct Hvals as [_ Hr].
      destruct (maps_ok_get _ _ _ _ _ Hok Hg) as (l & Hl & Hlne).
      assert (l = spec_values (spec_entries raw) (toLowerCase nm)) as <- by congruence.
      simpl. rewrite Hl. simpl. rewrite Hnames. by destruct l.
    + rewrite Hvals. simpl. by rewrite Hnames.
Qed.

Lemma trim_all_space s : all_space s = true → trim s = "".
Proof.
  unfold trim. induction s as [|c s IH]; simpl; [done|].
  intros [Hc Hs]%andb_true_iff. rewrite Hc. by apply IH.
Qed.

Lemma line_name_value line :
  (0 < indexOf line ":")%Z →
  spec_line line =
    Some (slice line 0 (Some (indexOf line ":")),
          trim (slice line (indexOf line ":" + 1) None)).
Proof.
  rewrite indexOf_cut. unfold spec_line.
  destruct (spec_cut line) as [[a b]|] eqn:Hcut; [|lia].
  intros Hpos. apply cut_append in Hcut as ->.
  rewrite slice_name, slice_value.
  destruct a; [simpl in Hpos; lia|done].
Qed.

Lemma spec_values_elem entries nm v :
  (nm, v) ∈ entries → v ∈ spec_values entries (toLowerCase nm).
Proof.
  intros Hin. unfold spec_values. apply list_elem_of_In, in_map_iff.
  exists (nm, v). split; [done|]. apply filter_In. split.
  - by apply list_elem_of_In.
  - simpl. apply String.eqb_refl.
Qed.

(** C3. A raw header block is read line by line: each line is cut at its
    first colon, a line without a colon or with nothing before it is
    ignored, the key is the lower-cased name and the value the trimmed
    rest; the values of one key are kept in line order and the first
    spelling of a name is the one displayed.  For the block
    "Content-Type: application/json", "X-Foo: a" this gives
    get("content-type") = "application/json", getAll("x-foo") = ["a"] and
    keys() = ["Content-Type", "X-Foo"]. *)
Theorem raw_string_construction :
  (∀ σ raw nm,
     let '(h, σ1) := new_HttpHeaders (Some (IString raw)) σ in
     let vals := spec_values (spec_entries raw) (toLowerCase nm) in
     read_has h nm σ1 = Some (match vals with [] => false | _ => true end) ∧
     read_get h nm σ1 = Some (head vals) ∧
     read_getAll h nm σ1 = Some (match vals with [] => None | _ => Some vals end) ∧
     read_keys h σ1 = Some (spec_names [] (spec_entries raw))) ∧
  (let '(h, σ1) := new_HttpHeaders (Some (IString example_raw)) empty_heap in
   read_get h "content-type" σ1 = Some (Some "application/json") ∧
   read_getAll h "x-foo" σ1 = Some (Some ["a"]) ∧
   read_keys h σ1 = Some ["Content-Type"; "X-Foo"]).
Proof.
  split; [apply new_string_reads|]. vm_compute. done.
Qed.

(** C10. A line with a colon after a non-empty name and nothing but white
    space after the colon is kept: its key is present and its value list
    holds the empty string.  For the block "X-Foo:", has("x-foo") is true
    and get("x-foo") is the empty string. *)
Theorem empty_value_line_kept :
  (∀ σ raw line,
     line ∈ split raw LF →
     (0 < indexOf line ":")%Z →
     all_space (slice line (indexOf line ":" + 1) None) = true →
     let nm := slice line 0 (Some (indexOf line ":")) in
     let '(h, σ1) := new_HttpHeaders (Some (IString raw)) σ in
     read_has h nm σ1 = Some true ∧
     ∃ l, read_getAll h nm σ1 = Some (Some l) ∧ "" ∈ l) ∧
  (let '(h, σ1) := new_HttpHeaders (Some (IString "X-Foo:")) empty_heap in
   read_has h "x-foo" σ1 = Some true ∧
   read_get h "x-foo" σ1 = Some (Some "") ∧
   read_getAll h "x-foo" σ1 = Some (Some [""])).
Proof.
  split; [|vm_compute; done].
  intros σ raw line Hline Hpos Hws nm.
  pose proof (new_string_reads σ raw nm) as Hreads.
  destruct (new_HttpHeaders (Some (IString raw)) σ) as [h σ1].
  destruct Hreads as (Hhas & _ & Hall & _).
  assert ("" ∈ spec_values (spec_entries raw) (toLowerCase nm)) as Hin.
  { apply spec_values_elem. unfold spec_entries. apply list_elem_of_omap.
    exists line. split; [done|]. rewrite (line_name_value line Hpos).
    by rewrite (trim_all_space _ Hws). }
  destruct (spec_values (spec_entries raw) (toLowerCase nm)) as [|x l] eqn:E.
  - by apply not_elem_of_nil in Hin.
  - split; [done|]. by exists (x :: l).
Qed.

(** C10 at the block "X-Foo: ", whose value part is one space. *)
Lemma empty_value_line_kept_witness :
  let '(h, σ1) := new_HttpHeaders (Some (IString "X-Foo: ")) empty_heap in
  read_has h "X-Foo" σ1 = Some true ∧
  ∃ l, read_getAll h "X-Foo" σ1 = Some (Some l) ∧ "" ∈ l.
Proof.
  apply (proj1 empty_value_line_kept empty_heap "X-Foo: " "X-Foo: ").
  - vm_compute. left.
  - vm_compute. reflexivity.
  - vm_compute. reflexivity.
Defined.

Lemma run_reachable cs : ∀ σ, reachable σ → run_ok cs σ → reachable (run cs σ).
Proof.
  induction cs as [|c cs IH]; intros σ Hr Hok; [done|].
  simpl in *. destruct Hok as [Hc Hok].
  destruct (exec c σ) as [[r σ']|] eqn:E; [|done].
  apply IH; [|done]. by eapply reachable_step.
Qed.

(** C8. Lookups are case-insensitive: two names with the same lower-case
    form read the same from a collection; get("content-type") and
    get("Content-Type") return the same value. *)
Theorem lookup_case_insensitive :
  (∀ σ this n1 n2,
     toLowerCase n1 = toLowerCase n2 →
     has this n1 σ = has this n2 σ ∧
     get this n1 σ = get this n2 σ ∧
     getAll this n1 σ = getAll this n2 σ) ∧
  (let '(h, σ1) := new_HttpHeaders (Some (IString example_raw)) empty_heap in
   read_get h "content-type" σ1 = Some (Some "application/json") ∧
   read_get h "Content-Type" σ1 = Some (Some "application/json")).
Proof.
  split; [|vm_compute; done].
  intros σ this n1 n2 Heq. unfold has, get, getAll. by rewrite Heq.
Qed.

(** C8 at the names "content-type" and "Content-Type". *)
Lemma lookup_case_insensitive_witness :
  let σ1 := (new_HttpHeaders (Some (IString example_raw)) empty_heap).2 in
  has 0 "content-type" σ1 = has 0 "Content-Type" σ1 ∧
  get 0 "content-type" σ1 = get 0 "Content-Type" σ1 ∧
  getAll 0 "content-type" σ1 = getAll 0 "Content-Type" σ1.
Proof.
  apply (proj1 lookup_case_insensitive). reflexivity.
Defined.

(** C4. In every store a program reaches, an initialised collection has
    the same keys in its value map and in its display-name map, and every
    value list it holds is a non-empty array. *)
Theorem maps_in_sync σ o h :
  reachable σ → objects σ !! o = Some h → lazyInit h = LNull →
  ∃ m, headers h = Some m ∧
    (∀ key, JsMap.has m key = JsMap.has (normalizedNames h) key) ∧
    (∀ key r, JsMap.get m key = Some r → ∃ l, arrays σ !! r = Some l ∧ l ≠ []).
Proof.
  intros Hr Ho Hli. pose proof (reachable_wf σ Hr o h Ho) as Hobj.
  unfold obj_ok in Hobj. rewrite Hli in Hobj. destruct Hobj as (_ & m & Hm & Hok).
  exists m. split; [done|]. split.
  - intros key. symmetry. by eapply maps_ok_has.
  - intros key r. by eapply maps_ok_get.
Qed.


Lemma example_calls_ok : run_ok example_calls empty_heap.
Proof. vm_compute. repeat split; repeat constructor. Qed.

(** C4 at the collection that [example_calls] leaves after "1" is
    deleted from "A": one key, one value. *)
Lemma maps_in_sync_witness :
  ∃ m, headers (mkHttpHeaders (Some [("a", 1)]) [("a", "A")] LNull None) = Some m ∧
    (∀ key, JsMap.has m key = JsMap.has [("a", "A")] key) ∧
    (∀ key r, JsMap.get m key = Some r →
       ∃ l, arrays (run example_calls empty_heap) !! r = Some l ∧ l ≠ []).
Proof.
  apply (maps_in_sync (run example_calls empty_heap) 1).
  - apply run_reachable; [apply reachable_empty|apply example_calls_ok].
  - vm_compute. reflexivity.
  - reflexivity.
Defined.

(** ** Reads of a clone against reads of its receiver *)

Lemma read_getAll_read o nm σ σ' h m :
  init_this o σ = Some σ' → objects σ' !! o = Some h → headers h = Some m →
  read_getAll o nm σ =
    match JsMap.get m (toLowerCase nm) with
    | Some r => l ← arrays σ' !! r; Some (Some l)
    | None => Some None
    end.
Proof.
  intros Hi Ho Hm. unfold read_getAll. rewrite (getAll_read _ nm _ _ _ _ Hi Ho Hm).
  simpl. by destruct (JsMap.get m (toLowerCase nm)).
Qed.

Lemma read_get_read o nm σ σ' h m :
  init_this o σ = Some σ' → objects σ' !! o = Some h → headers h = Some m →
  read_get o nm σ =
    match JsMap.get m (toLowerCase nm) with
    | Some r => l ← arrays σ' !! r; Some (head l)
    | None => Some None
    end.
Proof.
  intros Hi Ho Hm. unfold read_get. rewrite (get_read _ nm _ _ _ _ Hi Ho Hm).
  destruct (JsMap.get m (toLowerCase nm)) as [r|]; [|done].
  by destruct (arrays σ' !! r).
Qed.

Lemma read_forEach_read o σ σ' h m :
  init_this o σ = Some σ' → objects σ' !! o = Some h → headers h = Some m →
  read_forEach o σ =
    (calls ← mapM (λ key, n ← JsMap.get (normalizedNames h) key;
                          r ← JsMap.get m key; Some (n, r))
               (JsMap.keys (normalizedNames h));
     mapM (λ c : string * aref, l ← arrays σ' !! c.2; Some (c.1, l)) calls).
Proof.
  intros Hi Ho Hm. unfold read_forEach. rewrite (forEach_read _ _ _ _ _ Hi Ho Hm).
  by destruct (mapM _ _).
Qed.

(** Two initialised instances with the same maps over the same array
    cells read the same. *)
Lemma same_maps_reads oa σa σa' ha ob σb σb' hb m :
  init_this oa σa = Some σa' → objects σa' !! oa = Some ha →
  init_this ob σb = Some σb' → objects σb' !! ob = Some hb →
  headers ha = Some m → same_maps ha hb → arrays σa' = arrays σb' →
  ∀ nm,
    read_has oa nm σa = read_has ob nm σb ∧
    read_get oa nm σa = read_get ob nm σb ∧
    read_getAll oa nm σa = read_getAll ob nm σb ∧
    read_keys oa σa = read_keys ob σb ∧
    read_forEach oa σa = read_forEach ob σb ∧
    read_has oa nm σa = Some (JsMap.has m (toLowerCase nm)).
Proof.
  intros Hia Hoa Hib Hob Hm [Hsh Hsn] HA nm.
  assert (headers hb = Some m) as Hmb by congruence.
  unfold read_has, read_keys.
  rewrite (has_read _ nm _ _ _ _ Hia Hoa Hm), (has_read _ nm _ _ _ _ Hib Hob Hmb).
  rewrite (read_get_read _ nm _ _ _ _ Hia Hoa Hm), (read_get_read _ nm _ _ _ _ Hib Hob Hmb).
  rewrite (read_getAll_read _ nm _ _ _ _ Hia Hoa Hm),
    (read_getAll_read _ nm _ _ _ _ Hib Hob Hmb).
  rewrite (keys_read _ _ _ _ Hia Hoa), (keys_read _ _ _ _ Hib Hob).
  rewrite (read_forEach_read _ _ _ _ _ Hia Hoa Hm), (read_forEach_read _ _ _ _ _ Hib Hob Hmb).
  rewrite HA, Hsn. done.
Qed.











Lemma delete_absent {V} (m : JsMap.t V) k : JsMap.get m k = None → JsMap.delete m k = m.
Proof.
  induction m as [|[k' v'] m IH]; simpl; [done|].
  destruct (String.eqb k' k); [done|]. intros H. by rewrite IH.
Qed.

(** No call fails: on every store a program reaches, every construction
    and every operation on existing references returns (a raw header
    block is read whatever its lines are); a read of a name that is not
    present returns no value; a delete of a name that is not present
    returns a collection that reads the same as its receiver. *)
Theorem no_call_fails :
  (∀ σ c, reachable σ → call_ok σ c → ∃ r σ', exec c σ = Some (r, σ')) ∧
  (∀ σ this nm σ',
     has this nm σ = Some (false, σ') →
     get this nm σ = Some (None, σ') ∧ getAll this nm σ = Some (None, σ')) ∧
  (∀ σ this nm v,
     reachable σ → this < length (objects σ) →
     from_option (value_ok (arrays σ)) True v →
     read_has this nm σ = Some false →
     ∃ c σ1, delete this nm v σ = Some (c, σ1) ∧
       ∀ nm', read_has c nm' σ1 = read_has this nm' σ ∧
              read_get c nm' σ1 = read_get this nm' σ ∧
              read_getAll c nm' σ1 = read_getAll this nm' σ ∧
              read_keys c σ1 = read_keys this σ ∧
              read_forEach c σ1 = read_forEach this σ).
Proof.
  split; [|split].
  - intros σ c Hr Hc.
    destruct (exec_ok σ c (reachable_wf σ Hr) Hc) as (r & σ' & He & _). eauto.
  - intros σ this nm σ'. unfold has, get, getAll.
    destruct (init_this this σ) as [σ1|]; simpl; [|done].
    destruct (objects σ1 !! this) as [h|]; simpl; [|done].
    destruct (headers h) as [m|]; simpl; [|done].
    intros [= Hhas <-]. apply JsMapFacts.has_false_get in Hhas. by rewrite Hhas.
  - intros σ this nm v Hr Hlt Hv Habsent. pose proof (reachable_wf σ Hr) as Hwf.
    set (u := mkUpdate nm v OpD).
    destruct (clone_init σ this u Hwf Hlt)
      as (σh & hh & σ1 & hc' & σ2 & hc & Hinit & Hhh & Hok & Hg & Hcl & Happ & Hinitc
          & Hhc & Hsame & Hokc); [done|].
    destruct Hok as (m & Hm & Hmaps). simpl in Hm, Hmaps.
    unfold read_has in Habsent. rewrite (has_read _ nm _ _ _ _ Hinit Hhh Hm) in Habsent.
    injection Habsent as Habsent. apply JsMapFacts.has_false_get in Habsent.
    assert (same_maps hh hc' ∧ arrays σh = arrays σ2) as [Hs HA].
    { unfold applyUpdate in Happ. simpl in Happ. rewrite Hm in Happ. simpl in Happ.
      rewrite Habsent in Happ.
      rewrite (delete_absent m _ Habsent) in Happ.
      rewrite (delete_absent (normalizedNames hh) _
                 (maps_ok_get_names _ _ _ _ Hmaps Habsent)) in Happ.
      destruct (truthy v); injection Happ as <- <-; done. }
    exists (length (objects σ)), σ1. split; [done|]. intros nm'.
    destruct (same_maps_reads _ _ _ _ _ _ _ _ m Hinit Hhh Hinitc Hhc Hm
                (same_maps_trans _ _ _ Hs Hsame) HA nm')
      as (H1 & H2 & H3 & H4 & H5 & _).
    rewrite H1, H2, H3, H4, H5. done.
Qed.

(** [no_call_fails] at a delete of a name that is not present, after
    [example_calls]. *)
Lemma no_call_fails_witness :
  ∃ r σ', exec (CDelete 2 "B" (Some (VStr "x"))) (run example_calls empty_heap)
          = Some (r, σ').
Proof.
  apply (proj1 no_call_fails).
  - apply run_reachable; [apply reachable_empty|apply example_calls_ok].
  - vm_compute. split; [lia|done].
Defined.

(** C9 fails on the code in its last clause, a delete of a value that is
    not present: "ab" is not a value of "A" in the collection built from
    "A: a", yet delete("A", "ab") removes "a", and with it the key. *)
Lemma delete_absent_value_changes :
  let σ := run [CNew (Some (IString "A: a"))] empty_heap in
  read_getAll 0 "A" σ = Some (Some ["a"]) ∧
  ("ab" ∉ ["a"]) ∧
  (∃ c σ1, delete 0 "A" (Some (VStr "ab")) σ = Some (c, σ1) ∧
     read_has 0 "A" σ = Some true ∧ read_has c "A" σ1 = Some false).
Proof.
  split; [by vm_compute|]. split.
  - intros H. apply list_elem_of_singleton in H. discriminate.
  - do 2 eexists. split; [by vm_compute|]. by vm_compute.
Qed.

(** C1 fails on the code: the collection built from "A: 1" reads
    getAll("A") = ["1"]; after append("A", "2") on it and a read of the
    collection returned, the receiver reads getAll("A") = ["1", "2"]: the
    update pushed to the array that the two collections share. *)
Lemma append_changes_receiver :
  let σ := run [CNew (Some (IString "A: 1"))] empty_heap in
  let σ' := run [CAppend 0 "A" (VStr "2"); CGetAll 1 "A"] σ in
  read_getAll 0 "A" σ = Some (Some ["1"]) ∧
  read_getAll 1 "A" σ' = Some (Some ["1"; "2"]) ∧
  read_getAll 0 "A" σ' = Some (Some ["1"; "2"]) ∧
  read_get 0 "A" σ' = Some (Some "1") ∧
  (objects σ' !! 0 ≫= headers) = (objects σ' !! 1 ≫= headers).
Proof. by vm_compute. Qed.

(** C2 fails on the code: for the collection built from {A: ["a", "ab"]},
    delete("A", "ab") removes "a" as well, since the filter tests whether
    a value occurs inside the string "ab"; the list is then empty and the
    key is gone.  An empty string as filter removes the whole key. *)
Lemma delete_removes_substrings :
  let σ := run [CArray ["a"; "ab"]; CNew (Some (IRecord [("A", VArr 0)]));
                CDelete 0 "A" (Some (VStr "ab"))] empty_heap in
  let τ := run [CNew (Some (IString "A: 1")); CDelete 0 "A" (Some (VStr ""))]
             empty_heap in
  read_getAll 0 "A" σ = Some (Some ["a"; "ab"]) ∧
  read_getAll 1 "A" σ = Some None ∧
  read_has 1 "A" σ = Some false ∧
  read_getAll 0 "A" τ = Some (Some ["1"]) ∧
  read_has 1 "A" τ = Some false.
Proof. by vm_compute. Qed.

(** ** Reads of a receiver and of its clone, in terms of their maps *)

Lemma reads_view o σ σ' h m :
  init_this o σ = Some σ' → objects σ' !! o = Some h → headers h = Some m →
  (∀ nm, read_has o nm σ = Some (view_has m nm) ∧
         read_get o nm σ = view_get (arrays σ') m nm ∧
         read_getAll o nm σ = view_getAll (arrays σ') m nm) ∧
  read_keys o σ = Some (JsMap.values (normalizedNames h)).
Proof.
  intros Hi Ho Hm. split.
  - intros nm. unfold read_has. rewrite (has_read _ nm _ _ _ _ Hi Ho Hm).
    rewrite (read_get_read _ nm _ _ _ _ Hi Ho Hm), (read_getAll_read _ nm _ _ _ _ Hi Ho Hm).
    done.
  - unfold read_keys. by rewrite (keys_read _ _ _ _ Hi Ho).
Qed.


(** ** Display names lower-case to their keys *)

Lemma Forall_set_pair {V} (Q : string * V → Prop) (m : JsMap.t V) k v :
  Forall Q m → Q (k, v) → Forall Q (JsMap.set m k v).
Proof.
  intros Hm Hv. induction Hm as [|[k' v'] m Hx Hm IH]; simpl.
  - by constructor.
  - destruct (String.eqb_spec k' k) as [->|]; constructor; done.
Qed.

Lemma Forall_get_pair {V} (Q : string * V → Prop) (m : JsMap.t V) k v :
  Forall Q m → JsMap.get m k = Some v → Q (k, v).
Proof.
  intros Hm. induction Hm as [|[k' v'] m Hx Hm IH]; simpl; [done|].
  destruct (String.eqb_spec k' k) as [->|]; [|done]. by intros [= <-].
Qed.

Lemma forEachM_inv {X S} (P : S → Prop) (body : X → S → option S) xs :
  (∀ x s s', body x s = Some s' → P s → P s') →
  ∀ s s', forEachM body xs s = Some s' → P s → P s'.
Proof.
  intros Hbody. induction xs as [|x xs IH]; intros s s'.
  - simpl. by intros [= <-].
  - rewrite forEachM_cons. intros H Hs.
    apply bind_Some in H as (s1 & H1 & H2). eauto.
Qed.

Lemma names_ok_maybeSet nm this :
  names_ok (normalizedNames this) →
  names_ok (normalizedNames (maybeSetNormalizedName nm (toLowerCase nm) this)).
Proof.
  intros H. unfold maybeSetNormalizedName. destruct (negb _); [|done].
  simpl. by apply Forall_set_pair.
Qed.

Lemma names_ok_applyUpdate u h A h' A' :
  applyUpdate u (h, A) = Some (h', A') →
  names_ok (normalizedNames h) → names_ok (normalizedNames h').
Proof.
  unfold applyUpdate. intros H Hn.
  assert (names_ok (JsMap.delete (normalizedNames h) (toLowerCase (name u)))) as Hd
    by (by apply JsMapFacts.Forall_delete).
  pose proof (names_ok_maybeSet (name u) h Hn) as Hs.
  destruct (op u).
  - destruct (value u) as [v|]; simpl in H; [|done].
    destruct (toArray v A) as [val A1]. destruct (A1 !! val) as [items|]; simpl in H; [|done].
    destruct (length items =? 0); [by injection H as <- <-|].
    rewrite headers_maybeSet in H. destruct (headers h) as [m|]; simpl in H; [|done].
    destruct (JsMap.get m (toLowerCase (name u))) as [b|]; simpl in H.
    + destruct (push A1 b items); simpl in H; [|done]. by injection H as <- <-.
    + destruct (push _ _ items); simpl in H; [|done]. by injection H as <- <-.
  - destruct (value u) as [v|]; simpl in H; [|done].
    destruct (toArray v A) as [val A1]. destruct (A1 !! val) as [items|]; simpl in H; [|done].
    destruct (length items =? 0); [by injection H as <- <-|].
    rewrite headers_maybeSet in H. destruct (headers h) as [m|]; simpl in H; [|done].
    destruct (push _ _ items); simpl in H; [|done]. by injection H as <- <-.
  - destruct (headers h) as [m|]; simpl in H; [|done].
    destruct (truthy (value u)) as [f|]; [|by injection H as <- <-].
    destruct (JsMap.get m (toLowerCase (name u))) as [e|]; [|by injection H as <- <-].
    destruct (A !! e) as [l|]; simpl in H; [|done].
    destruct (keepValue f A) as [keep|]; simpl in H; [|done].
    destruct (length (List.filter keep l) =? 0); by injection H as <- <-.
Qed.

Lemma names_ok_parseLine line h A h' A' :
  parseLine line (h, A) = Some (h', A') →
  names_ok (normalizedNames h) → names_ok (normalizedNames h').
Proof.
  rewrite parseLine_spec. intros H Hn.
  destruct (spec_line line) as [[nm val]|]; [|by injection H as <- <-].
  pose proof (names_ok_maybeSet nm h Hn) as Hs. cbv zeta in H.
  rewrite headers_maybeSet in H. destruct (headers h) as [m|]; simpl in H; [|done].
  destruct (JsMap.get m (toLowerCase nm)) as [r|].
  - destruct (push A r [val]); simpl in H; [|done]. by injection H as <- <-.
  - by injection H as <- <-.
Qed.

Lemma names_ok_recordEntry nv h A h' A' :
  recordEntry nv (h, A) = Some (h', A') →
  names_ok (normalizedNames h) → names_ok (normalizedNames h').
Proof.
  unfold recordEntry. destruct nv as [nm v]. intros H Hn.
  destruct (toArray v A) as [val A1]. destruct (A1 !! val) as [l|]; simpl in H; [|done].
  destruct (0 <? length l); [|by injection H as <- <-].
  destruct (headers h) as [m|]; simpl in H; [|done]. injection H as <- <-.
  rewrite maybeSet_with_headers. simpl. by apply names_ok_maybeSet.
Qed.

Lemma names_ok_copyEntry other key h A h' A' :
  names_ok (normalizedNames other) →
  copyEntry other key (h, A) = Some (h', A') →
  names_ok (normalizedNames h) → names_ok (normalizedNames h').
Proof.
  intros Ho. rewrite copyEntry_eq. intros H Hn.
  destruct (headers other) as [om|]; simpl in H; [|done].
  destruct (headers h) as [m|]; simpl in H; [|done].
  destruct (JsMap.get om key) as [r|]; simpl in H; [|done].
  destruct (JsMap.get (normalizedNames other) key) as [n|] eqn:E; simpl in H; [|done].
  injection H as <- <-. simpl. apply Forall_set_pair; [done|].
  by apply (Forall_get_pair _ _ _ _ Ho E).
Qed.

Lemma names_ok_finishInit h A h' A' :
  finishInit (h, A) = Some (h', A') →
  names_ok (normalizedNames h) → names_ok (normalizedNames h').
Proof.
  rewrite finishInit_eq. intros H Hn.
  apply bind_Some in H as ([hx Ax] & Hrun & H). injection H as <- <-. simpl.
  apply (forEachM_inv (λ st : Local, names_ok (normalizedNames st.1)) applyUpdate
           _ (λ x s s', match s, s' with (a, b), (c, d) =>
                          names_ok_applyUpdate x a b c d end) _ _ Hrun Hn).
Qed.

Lemma names_wf_on_this this body σ σ' :
  (∀ h A h' A', body (h, A) = Some (h', A') →
                names_ok (normalizedNames h) → names_ok (normalizedNames h')) →
  on_this this body σ = Some σ' → names_wf σ → names_wf σ'.
Proof.
  intros Hbody. unfold on_this. intros H Hwf.
  destruct (objects σ !! this) as [h|] eqn:Hh; simpl in H; [|done].
  destruct (body (h, arrays σ)) as [[h' A']|] eqn:Hb; simpl in H; [|done].
  injection H as <-. intros o ho. simpl.
  destruct (decide (o = this)) as [->|Hne].
  - rewrite list_lookup_insert_eq by (by eapply lookup_lt_Some).
    intros [= <-]. eapply Hbody; [exact Hb|]. by eapply Hwf.
  - rewrite list_lookup_insert_ne by done. apply Hwf.
Qed.

Lemma names_wf_init fuel : ∀ this σ σ',
  init fuel this σ = Some σ' → names_wf σ → names_wf σ'.
Proof.
  induction fuel as [|fuel IH]; intros this σ σ' H Hwf; [done|].
  rewrite init_S in H.
  destruct (objects σ !! this) as [h|] eqn:Hh; simpl in H; [|done].
  destruct (lazyInit h) as [|other|raw|rec].
  - by injection H as <-.
  - apply bind_Some in H as (σ1 & H1 & H2).
    unfold copyFrom in H1. apply bind_Some in H1 as (σa & Ha & H1).
    pose proof (IH _ _ _ Ha Hwf) as Hwfa.
    destruct (objects σa !! other) as [oh|] eqn:Hoh; simpl in H1; [|done].
    destruct (headers oh) as [om|]; simpl in H1; [|done].
    eapply (names_wf_on_this _ _ _ _ names_ok_finishInit H2).
    eapply (names_wf_on_this _ _ _ _ _ H1 Hwfa).
  - apply bind_Some in H as (σ1 & H1 & H2).
    eapply (names_wf_on_this _ _ _ _ names_ok_finishInit H2).
    eapply (names_wf_on_this _ _ _ _ _ H1 Hwf).
  - apply bind_Some in H as (σ1 & H1 & H2).
    eapply (names_wf_on_this _ _ _ _ names_ok_finishInit H2).
    eapply (names_wf_on_this _ _ _ _ _ H1 Hwf).
  Unshelve.
  + intros h0 A h' A' Hrun Hn.
    apply (forEachM_inv (λ st : Local, names_ok (normalizedNames st.1)) (copyEntry oh)
             _ (λ x s s', match s, s' with (a, b), (c, d) =>
                            names_ok_copyEntry oh x a b c d (Hwfa other oh Hoh) end)
             _ _ Hrun Hn).
  + intros h0 A h' A'. unfold lazyInit_string. intros Hrun Hn.
    apply (forEachM_inv (λ st : Local, names_ok (normalizedNames st.1)) parseLine
             _ (λ x s s', match s, s' with (a, b), (c, d) =>
                            names_ok_parseLine x a b c d end)
             _ _ Hrun Hn).
  + intros h0 A h' A'. unfold lazyInit_record. intros Hrun Hn.
    apply (forEachM_inv (λ st : Local, names_ok (normalizedNames st.1)) recordEntry
             _ (λ x s s', match s, s' with (a, b), (c, d) =>
                            names_ok_recordEntry x a b c d end)
             _ _ Hrun Hn).
Qed.

Lemma names_wf_snoc σ h :
  names_wf σ → names_ok (normalizedNames h) →
  names_wf (mkHeap (arrays σ) (objects σ ++ [h])).
Proof.
  intros Hwf Hh o h0. simpl. intros Ho.
  apply lookup_app_Some in Ho as [Ho|[_ Ho]]; [by eapply Hwf|].
  apply list_lookup_singleton_Some in Ho as [_ <-]. done.
Qed.

Lemma names_wf_exec σ c r σ' :
  exec c σ = Some (r, σ') → names_wf σ → names_wf σ'.
Proof.
  intros H Hwf.
  assert (∀ this σ1, init_this this σ = Some σ1 → names_wf σ1) as Hinit.
  { intros this σ1 Hi. by eapply names_wf_init. }
  assert (∀ this u o σ1, clone this u σ = Some (o, σ1) → names_wf σ1) as Hclone.
  { intros this u o σ1. unfold clone.
    destruct (objects σ !! this) as [h|]; simpl; [|done]. intros [= _ <-].
    apply names_wf_snoc; [done|]. simpl. constructor. }
  destruct c as [l|input|h nm|h nm|h|h nm|h|h nm v|h nm v|h nm v]; simpl in H.
  - injection H as _ <-. intros o h. simpl. apply Hwf.
  - injection H as _ <-. apply names_wf_snoc; [done|].
    destruct input as [[raw|rec]|]; simpl; [destruct (String.eqb raw "")|..];
      simpl; constructor.
  - unfold has in H. destruct (init_this h σ) as [σ1|] eqn:E; simpl in H; [|done].
    destruct (objects σ1 !! h) as [x|]; simpl in H; [|done].
    destruct (headers x); simpl in H; [|done]. injection H as _ <-. eauto.
  - unfold get in H. destruct (init_this h σ) as [σ1|] eqn:E; simpl in H; [|done].
    destruct (objects σ1 !! h) as [x|]; simpl in H; [|done].
    destruct (headers x) as [m|]; simpl in H; [|done].
    destruct (JsMap.get m (toLowerCase nm)) as [r0|].
    + destruct (arrays σ1 !! r0); simpl in H; [|done]. injection H as _ <-. eauto.
    + injection H as _ <-. eauto.
  - unfold keys in H. destruct (init_this h σ) as [σ1|] eqn:E; simpl in H; [|done].
    destruct (objects σ1 !! h) as [x|]; simpl in H; [|done]. injection H as _ <-. eauto.
  - unfold getAll in H. destruct (init_this h σ) as [σ1|] eqn:E; simpl in H; [|done].
    destruct (objects σ1 !! h) as [x|]; simpl in H; [|done].
    destruct (headers x); simpl in H; [|done]. injection H as _ <-. eauto.
  - unfold forEach in H. destruct (init_this h σ) as [σ1|] eqn:E; simpl in H; [|done].
    destruct (objects σ1 !! h) as [x|]; simpl in H; [|done].
    destruct (headers x); simpl in H; [|done].
    destruct (mapM _ _); simpl in H; [|done]. injection H as _ <-. eauto.
  - unfold append in H. destruct (clone _ _ σ) as [[o σ1]|] eqn:E; simpl in H; [|done].
    injection H as _ <-. eauto.
  - unfold set in H. destruct (clone _ _ σ) as [[o σ1]|] eqn:E; simpl in H; [|done].
    injection H as _ <-. eauto.
  - unfold delete in H. destruct (clone _ _ σ) as [[o σ1]|] eqn:E; simpl in H; [|done].
    injection H as _ <-. eauto.
Qed.

Lemma reachable_names_wf σ : reachable σ → names_wf σ.
Proof.
  induction 1 as [|σ c r σ' _ IH _ Hex].
  - intros o h. simpl. by rewrite lookup_nil.
  - by eapply names_wf_exec.
Qed.

(** ** A read, whichever method makes it *)

Lemma get_elem {V} (n : JsMap.t V) k v :
  NoDup (JsMap.keys n) → (k, v) ∈ n → JsMap.get n k = Some v.
Proof.
  induction n as [|[k0 v0] n IH]; simpl; intros Hnd Hin.
  - by apply not_elem_of_nil in Hin.
  - apply NoDup_cons in Hnd as [Hk0 Hnd].
    apply elem_of_cons in Hin as [[= <- <-]|Hin].
    + by rewrite String.eqb_refl.
    + destruct (String.eqb_spec k0 k) as [->|]; [|by apply IH].
      exfalso. apply Hk0. apply list_elem_of_fmap. by exists (k, v).
Qed.

(** X1. On every store a program reaches, has, get and getAll agree on
    whether a name is present: getAll is null exactly when has is false,
    a list that is returned is never empty, and get is its first
    element. *)
Theorem reads_agree σ this nm :
  reachable σ → this < length (objects σ) →
  ∃ r, read_getAll this nm σ = Some r ∧
       read_has this nm σ = Some (match r with Some _ => true | None => false end) ∧
       read_get this nm σ = Some (r ≫= head) ∧
       (∀ l, r = Some l → l ≠ [] ∧ is_Some (head l)).
Proof.
  intros Hr Hlt.
  destruct (init_this_ok σ this (reachable_wf σ Hr) Hlt)
    as (σ' & h & m & Hi & _ & Ho & _ & _ & Hm & Hmaps & _).
  destruct (reads_view _ _ _ _ _ Hi Ho Hm) as [R _].
  destruct (R nm) as (-> & -> & ->).
  unfold view_has, view_get, view_getAll, JsMap.has.
  destruct (JsMap.get m (toLowerCase nm)) as [r|] eqn:Hg.
  - destruct (maps_ok_get _ _ _ _ _ Hmaps Hg) as (l & -> & Hne).
    exists (Some l). simpl. split; [done|]. split; [done|]. split; [done|].
    intros l' [= <-]. split; [done|]. destruct l; [done|]. simpl. eauto.
  - exists None. done.
Qed.

(** X1 at the collection built from "A: 1". *)
Lemma reads_agree_witness :
  ∃ r, read_getAll 0 "a" (run [CNew (Some (IString "A: 1"))] empty_heap) = Some r ∧
       read_has 0 "a" (run [CNew (Some (IString "A: 1"))] empty_heap)
         = Some (match r with Some _ => true | None => false end) ∧
       read_get 0 "a" (run [CNew (Some (IString "A: 1"))] empty_heap)
         = Some (r ≫= head) ∧
       (∀ l, r = Some l → l ≠ [] ∧ is_Some (head l)).
Proof.
  apply reads_agree.
  - apply run_reachable; [apply reachable_empty|]. vm_compute. done.
  - vm_compute. lia.
Defined.

(** X2. keys() and forEach list the same names in the same order; no two
    of them differ only in case; and each name that forEach passes comes
    with exactly the list that getAll returns for it, so every name of
    keys() is present. *)
Theorem keys_and_forEach σ this :
  reachable σ → this < length (objects σ) →
  ∃ ks calls,
    read_keys this σ = Some ks ∧ read_forEach this σ = Some calls ∧
    map fst calls = ks ∧ NoDup (map toLowerCase ks) ∧
    ∀ nm l, (nm, l) ∈ calls →
      read_getAll this nm σ = Some (Some l) ∧ read_has this nm σ = Some true.
Proof.
  intros Hr Hlt. pose proof (reachable_wf σ Hr) as Hwf.
  destruct (init_this_ok σ this Hwf Hlt)
    as (σ' & h & m & Hi & _ & Ho & _ & _ & Hm & Hmaps & _).
  assert (names_ok (normalizedNames h)) as Hn.
  { eapply (names_wf_init _ _ _ _ Hi); [|exact Ho]. by apply reachable_names_wf. }
  destruct (reads_view _ _ _ _ _ Hi Ho Hm) as [R Rk].
  rewrite (read_forEach_read _ _ _ _ _ Hi Ho Hm).
  destruct (mapM_calls_ok _ _ _ Hmaps) as [cs Hcs]. rewrite Hcs. simpl.
  pose proof Hcs as Hcs2. apply mapM_Some in Hcs2.
  destruct Hmaps as (Hk & Hnd & Hv).
  assert (Forall (λ c : string * aref,
            JsMap.get m (toLowerCase c.1) = Some c.2 ∧
            ∃ l, arrays σ' !! c.2 = Some l) cs) as Hall.
  { apply Forall_forall. intros [n r] Hin.
    apply list_elem_of_lookup in Hin as [i Hi'].
    destruct (Forall2_lookup_r _ _ _ _ _ Hcs2 Hi') as (key & _ & Hf).
    simpl in Hf. apply bind_Some in Hf as (n' & Hgn & Hf).
    apply bind_Some in Hf as (r' & Hgm & Hf). injection Hf as <- <-. simpl.
    pose proof (Forall_get_pair _ _ _ _ Hn Hgn) as Hlow. simpl in Hlow.
    rewrite Hlow. split; [done|].
    destruct (JsMapFacts.Forall_get (λ r, ∃ l, arrays σ' !! r = Some l ∧ l ≠ [])
                m key r' Hv Hgm) as (l & Hl & _). eauto. }
  assert (is_Some (mapM (λ c : string * aref, l ← arrays σ' !! c.2; Some (c.1, l)) cs))
    as [outs Houts].
  { apply mapM_is_Some. eapply Forall_impl; [exact Hall|].
    intros c (_ & l & Hl). simpl. rewrite Hl. simpl. eauto. }
  rewrite Houts. apply mapM_Some in Houts.
  exists (JsMap.values (normalizedNames h)), outs.
  split; [done|]. split; [done|]. split; [|split].
  - (* the names, in order *)
    assert (Forall2 (λ key n, JsMap.get (normalizedNames h) key = Some n)
              (JsMap.keys (normalizedNames h)) (map fst outs)) as H1.
    { apply Forall2_fmap_r.
      assert (Forall2 (λ (key : string) (c : string * aref),
                JsMap.get (normalizedNames h) key = Some c.1)
                (JsMap.keys (normalizedNames h)) cs) as H0.
      { eapply Forall2_impl; [exact Hcs2|]. intros key [n r] Hf. simpl in *.
        apply bind_Some in Hf as (n' & Hgn & Hf).
        apply bind_Some in Hf as (r' & Hgm & Hf). by injection Hf as <- <-. }
      clear -H0 Houts. revert outs Houts.
      induction H0 as [|key c ks cs Hkc H0 IH]; intros outs Houts.
      - apply Forall2_nil_inv_l in Houts as ->. constructor.
      - apply Forall2_cons_inv_l in Houts as (out & outs' & Hout & Houts & ->).
        constructor; [|by apply IH].
        apply bind_Some in Hout as (l & _ & Hout). by injection Hout as <-. }
    assert (Forall2 (λ key n, JsMap.get (normalizedNames h) key = Some n)
              (JsMap.keys (normalizedNames h)) (JsMap.values (normalizedNames h))) as H2.
    { unfold JsMap.keys, JsMap.values. apply Forall2_fmap.
      apply Forall_Forall2_diag. apply Forall_forall. intros [k v] Hin. simpl.
      apply get_elem; [by rewrite <- Hk|done]. }
    clear -H1 H2. revert H2. generalize (JsMap.values (normalizedNames h)).
    induction H1 as [|key n ks ns Hkn H1 IH]; intros vs H2.
    + by apply Forall2_nil_inv_l in H2 as ->.
    + apply Forall2_cons_inv_l in H2 as (v & vs' & Hv & H2 & ->).
      f_equal; [congruence|by apply IH].
  - (* no two names with the same key *)
    replace (map toLowerCase (JsMap.values (normalizedNames h)))
      with (JsMap.keys (normalizedNames h)); [by rewrite <- Hk|].
    clear -Hn. induction Hn as [|[k v] n Hx Hn IH]; simpl; [done|].
    simpl in Hx. by rewrite Hx, IH.
  - intros nm l Hin.
    apply list_elem_of_lookup in Hin as [i Hi'].
    destruct (Forall2_lookup_r _ _ _ _ _ Houts Hi') as ([n r] & Hc & Hf).
    simpl in Hf. apply bind_Some in Hf as (l' & Hl & Hf). injection Hf as <- <-.
    pose proof (proj1 (Forall_lookup _ _) Hall _ _ Hc) as (Hg & _). simpl in Hg.
    destruct (R n) as (-> & _ & ->). unfold view_has, view_getAll, JsMap.has.
    rewrite Hg, Hl. done.
Qed.

(** X2 at the collection that [example_calls] builds first. *)
Lemma keys_and_forEach_witness :
  ∃ ks calls,
    read_keys 0 (run example_calls empty_heap) = Some ks ∧
    read_forEach 0 (run example_calls empty_heap) = Some calls ∧
    map fst calls = ks ∧ NoDup (map toLowerCase ks) ∧
    ∀ nm l, (nm, l) ∈ calls →
      read_getAll 0 nm (run example_calls empty_heap) = Some (Some l) ∧
      read_has 0 nm (run example_calls empty_heap) = Some true.
Proof.
  apply keys_and_forEach.
  - apply run_reachable; [apply reachable_empty|apply example_calls_ok].
  - vm_compute. lia.
Defined.

(** ** Reading twice *)

Lemma init_this_idem σ this σ' :
  wf σ → init_this this σ = Some σ' → init_this this σ' = Some σ'.
Proof.
  intros Hwf Hi.
  assert (this < length (objects σ)) as Hlt.
  { unfold init_this in Hi. rewrite init_S in Hi.
    destruct (objects σ !! this) eqn:E; [by eapply lookup_lt_Some|done]. }
  destruct (init_this_ok σ this Hwf Hlt) as (σ1 & h & m & Hi1 & _ & Ho & Hli & _).
  rewrite Hi in Hi1. injection Hi1 as <-.
  unfold init_this. rewrite init_S, Ho. simpl. by rewrite Hli.
Qed.

(** X3. A read initialises its collection once: run again on the store
    it left, the same read returns the same result and leaves the store
    as it is. *)
Theorem read_twice σ c r σ' :
  reachable σ → is_read c = true → exec c σ = Some (r, σ') →
  exec c σ' = Some (r, σ').
Proof.
  intros Hr Hc Hex. pose proof (reachable_wf σ Hr) as Hwf.
  destruct c as [l|input|h nm|h nm|h|h nm|h|h nm v|h nm v|h nm v]; try done;
    simpl in *.
  - unfold has in *. destruct (init_this h σ) as [σ1|] eqn:E; simpl in Hex; [|done].
    assert (σ' = σ1) as ->.
    { destruct (objects σ1 !! h) as [x|]; simpl in Hex; [|done].
      destruct (headers x); simpl in Hex; [|done]. by injection Hex as _ <-. }
    by rewrite (init_this_idem _ _ _ Hwf E).
  - unfold get in *. destruct (init_this h σ) as [σ1|] eqn:E; simpl in Hex; [|done].
    assert (σ' = σ1) as ->.
    { destruct (objects σ1 !! h) as [x|]; simpl in Hex; [|done].
      destruct (headers x) as [m|]; simpl in Hex; [|done].
      destruct (JsMap.get m (toLowerCase nm)) as [r0|].
      - destruct (arrays σ1 !! r0); simpl in Hex; [|done]. by injection Hex as _ <-.
      - by injection Hex as _ <-. }
    by rewrite (init_this_idem _ _ _ Hwf E).
  - unfold keys in *. destruct (init_this h σ) as [σ1|] eqn:E; simpl in Hex; [|done].
    assert (σ' = σ1) as ->.
    { destruct (objects σ1 !! h) as [x|]; simpl in Hex; [|done]. by injection Hex as _ <-. }
    by rewrite (init_this_idem _ _ _ Hwf E).
  - unfold getAll in *. destruct (init_this h σ) as [σ1|] eqn:E; simpl in Hex; [|done].
    assert (σ' = σ1) as ->.
    { destruct (objects σ1 !! h) as [x|]; simpl in Hex; [|done].
      destruct (headers x); simpl in Hex; [|done]. by injection Hex as _ <-. }
    by rewrite (init_this_idem _ _ _ Hwf E).
  - unfold forEach in *. destruct (init_this h σ) as [σ1|] eqn:E; simpl in Hex; [|done].
    assert (σ' = σ1) as ->.
    { destruct (objects σ1 !! h) as [x|]; simpl in Hex; [|done].
      destruct (headers x); simpl in Hex; [|done].
      destruct (mapM _ _); simpl in Hex; [|done]. by injection Hex as _ <-. }
    by rewrite (init_this_idem _ _ _ Hwf E).
Qed.

(** X3 at the first read of an unread clone: "A: 1" with "2" appended. *)
Lemma read_twice_witness :
  exec (CGetAll 1 "a")
    (run [CNew (Some (IString "A: 1")); CAppend 0 "A" (VStr "2"); CGetAll 1 "a"]
       empty_heap) =
  Some (RArrayOpt (Some 0),
        run [CNew (Some (IString "A: 1")); CAppend 0 "A" (VStr "2"); CGetAll 1 "a"]
          empty_heap).
Proof.
  apply (read_twice (run [CNew (Some (IString "A: 1")); CAppend 0 "A" (VStr "2")]
                       empty_heap)).
  - apply run_reachable; [apply reachable_empty|]. vm_compute. done.
  - reflexivity.
  - vm_compute. reflexivity.
Defined.

(** ** The call of append, set or delete *)

(** X4. append, set and delete do no work when called: the array cells
    are untouched, the instances that exist are untouched, one instance is
    added, and every collection that existed reads as it did before the
    call. *)
Theorem clone_is_lazy σ this u c σ1 :
  reachable σ → clone this u σ = Some (c, σ1) →
  arrays σ1 = arrays σ ∧
  (∃ new, objects σ1 = objects σ ++ [new]) ∧
  ∀ o nm, o < length (objects σ) →
    read_has o nm σ1 = read_has o nm σ ∧
    read_get o nm σ1 = read_get o nm σ ∧
    read_getAll o nm σ1 = read_getAll o nm σ ∧
    read_keys o σ1 = read_keys o σ ∧
    read_forEach o σ1 = read_forEach o σ.
Proof.
  intros Hr Hcl. pose proof (reachable_wf σ Hr) as Hwf.
  unfold clone in Hcl. destruct (objects σ !! this) as [h|]; simpl in Hcl; [|done].
  injection Hcl as <- <-. simpl. split; [done|]. split; [eauto|].
  intros o nm Hlt.
  destruct (init_this_ok σ o Hwf Hlt) as (σ' & ho & m & Hi & _ & Ho & _ & _ & Hm & _).
  set (c0 := with_lazyUpdate _ _).
  set (σ1 := mkHeap (arrays σ) (objects σ ++ [c0])).
  assert (init_this o σ1 = Some (mkHeap (arrays σ') (objects σ' ++ [c0]))) as Hi1.
  { unfold init_this in *. unfold σ1. cbn [objects].
    eapply init_fuel_mono; [apply (init_ext _ _ _ _ [c0] Hi)|].
    rewrite length_app. simpl. lia. }
  assert (objects (mkHeap (arrays σ') (objects σ' ++ [c0])) !! o = Some ho) as Ho1.
  { simpl. by apply lookup_app_l_Some. }
  destruct (same_maps_reads _ _ _ _ _ _ _ _ m Hi1 Ho1 Hi Ho Hm (same_maps_refl _)
              eq_refl nm) as (H1 & H2 & H3 & H4 & H5 & _).
  done.
Qed.

(** X4 at an append to the collection built from "A: 1". *)
Lemma clone_is_lazy_witness :
  let σ := run [CNew (Some (IString "A: 1"))] empty_heap in
  let σ1 := run [CNew (Some (IString "A: 1")); CAppend 0 "A" (VStr "2")] empty_heap in
  arrays σ1 = arrays σ ∧
  (∃ new, objects σ1 = objects σ ++ [new]) ∧
  ∀ o nm, o < length (objects σ) →
    read_has o nm σ1 = read_has o nm σ ∧
    read_get o nm σ1 = read_get o nm σ ∧
    read_getAll o nm σ1 = read_getAll o nm σ ∧
    read_keys o σ1 = read_keys o σ ∧
    read_forEach o σ1 = read_forEach o σ.
Proof.
  apply (clone_is_lazy _ 0 (mkUpdate "A" (Some (VStr "2")) OpA) 1).
  - apply run_reachable; [apply reachable_empty|]. vm_compute. done.
  - vm_compute. reflexivity.
Defined.

(** ** delete *)













(** ** append and set *)






(** ** Construction from a record *)

Lemma record_entry_snoc A rc nm v key :
  record_entry A (rc ++ [(nm, v)]) key =
    if String.eqb (toLowerCase nm) key && has_items A v then Some v
    else record_entry A rc key.
Proof.
  induction rc as [|[nm0 v0] rc IH]; simpl.
  - by destruct (_ && _).
  - rewrite IH. destruct (String.eqb (toLowerCase nm) key && has_items A v); [done|].
    done.
Qed.

Lemma first_seen_snoc seen l nm :
  first_seen seen (l ++ [nm]) =
    first_seen seen l ++
      (if existsb (String.eqb (toLowerCase nm)) seen
          || existsb (String.eqb (toLowerCase nm)) (map toLowerCase l)
       then [] else [nm]).
Proof.
  revert seen. induction l as [|n0 l IH]; intros seen; simpl.
  - rewrite orb_false_r. by destruct (existsb _ seen).
  - destruct (existsb (String.eqb (toLowerCase n0)) seen) eqn:E0.
    + rewrite IH. f_equal.
      destruct (String.eqb_spec (toLowerCase nm) (toLowerCase n0)) as [Heq|Hne]; [|done].
      by rewrite Heq, E0.
    + simpl. f_equal. rewrite IH. f_equal. simpl.
      destruct (String.eqb_spec (toLowerCase nm) (toLowerCase n0)) as [Heq|Hne]; simpl.
      * by rewrite orb_true_r.
      * done.
Qed.

Lemma record_entry_names A rc key :
  existsb (String.eqb key) (map toLowerCase (record_names A rc)) =
    match record_entry A rc key with Some _ => true | None => false end.
Proof.
  unfold record_names. induction rc as [|[nm v] rc IH]; simpl; [done|].
  destruct (has_items A v) eqn:Hv; simpl.
  - rewrite IH. rewrite String.eqb_sym.
    destruct (record_entry A rc key); [by rewrite orb_true_r|].
    rewrite orb_false_r, andb_true_r. by destruct (String.eqb _ _).
  - rewrite IH, andb_false_r. by destruct (record_entry A rc key).
Qed.

Lemma record_names_snoc A rc nm v :
  record_names A (rc ++ [(nm, v)]) =
    record_names A rc ++ (if has_items A v then [nm] else []).
Proof.
  unfold record_names. rewrite List.filter_app, List.map_app. simpl.
  by destruct (has_items A v).
Qed.

Lemma recordEntry_recorded A0 rc nm v this A :
  value_ok A0 v → recorded A0 rc (this, A) →
  ∃ this' A', recordEntry (nm, v) (this, A) = Some (this', A') ∧
    recorded A0 (rc ++ [(nm, v)]) (this', A') ∧ same_lazy this this'.
Proof.
  intros Hv (m & Hm & Hok & Hvals & Hnames & Hlen & Hold).
  simpl in Hm, Hok, Hvals, Hnames, Hlen, Hold.
  assert (∃ items, valueItems A0 v = Some items) as [items Hitems].
  { destruct v as [s|r]; simpl; [eauto|]. by apply lookup_lt_is_Some_2. }
  assert (valueItems A v = Some items) as HitemsA.
  { destruct v as [s|r]; simpl in *; [done|]. rewrite Hold; [done|].
    by eapply lookup_lt_Some. }
  destruct (toArray_spec A v items HitemsA) as (val & A1 & HtA & Hval & Hlen1 & Hold1 & _).
  assert (∀ r', v = VArr r' → val = r') as Halias.
  { intros r' ->. simpl in HtA. by injection HtA as <- _. }
  assert (∀ r, r < length A0 → A1 !! r = A0 !! r) as Hold01.
  { intros r Hr'. rewrite Hold1 by lia. by apply Hold. }
  assert (grows A A1) as Hg.
  { split; [done|]. intros r l Hr'. exists []. rewrite app_nil_r. split; [|done].
    rewrite Hold1; [done|by eapply lookup_lt_Some]. }
  unfold recordEntry. rewrite HtA, Hval. simpl.
  assert (has_items A0 v = match items with [] => false | _ => true end) as Hhas.
  { unfold has_items. rewrite Hitems. by destruct items. }
  destruct items as [|x items]; simpl.
  - do 2 eexists. split; [done|]. split; [|done].
    exists m. simpl. split; [done|]. split; [by eapply maps_ok_grows|].
    split.
    { intros key. rewrite record_entry_snoc, Hhas, andb_false_r.
      specialize (Hvals key). destruct (record_entry A0 rc key) as [w|]; [|done].
      destruct Hvals as (r & Hgr & Hr' & Hal). exists r. split; [done|]. split; [|done].
      rewrite <- Hr'. apply Hold1.
      destruct (maps_ok_get _ _ _ _ _ Hok Hgr) as (l & Hl & _). by eapply lookup_lt_Some. }
    split; [by rewrite record_names_snoc, Hhas, app_nil_r|].
    split; [lia|done].
  - rewrite Hm. simpl. do 2 eexists. split; [done|].
    rewrite maybeSet_with_headers. split;
      [|eapply same_lazy_trans; [apply lazy_maybeSet|apply with_headers_lazy]].
    exists (JsMap.set m (toLowerCase nm) val). simpl. split; [done|]. split.
    { apply maps_ok_set; [by eapply maps_ok_grows|]. by eexists. }
    split.
    { intros key. rewrite record_entry_snoc, Hhas, andb_true_r.
      destruct (String.eqb_spec (toLowerCase nm) key) as [<-|Hne].
      - exists val. rewrite JsMapFacts.get_set_eq. split; [done|]. split; [|done].
        by rewrite Hval, Hitems.
      - rewrite JsMapFacts.get_set_ne by done.
        specialize (Hvals key). destruct (record_entry A0 rc key) as [w|]; [|done].
        destruct Hvals as (r & Hgr & Hr' & Hal). exists r. split; [done|]. split; [|done].
        rewrite <- Hr'. apply Hold1.
        destruct (maps_ok_get _ _ _ _ _ Hok Hgr) as (l & Hl & _). by eapply lookup_lt_Some. }
    split.
    { rewrite record_names_snoc, Hhas, first_seen_snoc. simpl.
      rewrite record_entry_names. specialize (Hvals (toLowerCase nm)).
      destruct (record_entry A0 rc (toLowerCase nm)) as [w|].
      - destruct Hvals as (r & Hgr & _).
        rewrite names_maybeSet_present; [by rewrite app_nil_r|].
        by eapply maps_ok_get_names_Some.
      - rewrite names_maybeSet_absent by (by eapply maps_ok_get_names).
        unfold JsMap.values in *. by rewrite map_app, Hnames. }
    split; [lia|done].
Qed.

Lemma lazyInit_record_recorded A0 rec : ∀ rc this A,
  record_ok A0 rec → recorded A0 rc (this, A) →
  ∃ this' A', forEachM recordEntry rec (this, A) = Some (this', A') ∧
    recorded A0 (rc ++ rec) (this', A') ∧ same_lazy this this'.
Proof.
  induction rec as [|[nm v] rec IH]; intros rc this A Hrec Hp.
  - simpl. rewrite app_nil_r. by do 2 eexists.
  - apply Forall_cons in Hrec as [Hv Hrec]. rewrite forEachM_cons.
    destruct (recordEntry_recorded A0 rc nm v this A Hv Hp) as (this1 & A1 & -> & Hp1 & Hl1).
    simpl. destruct (IH _ _ _ Hrec Hp1) as (this2 & A2 & -> & Hp2 & Hl2).
    do 2 eexists. split; [done|]. rewrite <- app_assoc in Hp2. split; [done|].
    by eapply same_lazy_trans.
Qed.

Lemma new_record_init σ rec :
  record_ok (arrays σ) rec →
  ∃ h A, recorded (arrays σ) rec (h, A) ∧
    init_this (length (objects σ)) (new_HttpHeaders (Some (IRecord rec)) σ).2 =
      Some (mkHeap A (objects σ ++ [h])).
Proof.
  intros Hrec. unfold new_HttpHeaders, construct. cbn [snd].
  set (c0 := mkHttpHeaders None JsMap.empty (LRecord rec) None).
  destruct (lazyInit_record_recorded (arrays σ) rec [] (with_headers JsMap.empty c0)
              (arrays σ) Hrec) as (h1 & A1 & Hrun & Hp & Hl).
  { exists JsMap.empty. simpl. repeat split; try done; constructor. }
  simpl in Hp.
  exists (with_lazyInit LNull h1), A1. split.
  { destruct Hp as (m & Hp). by exists m. }
  unfold init_this. rewrite init_S. cbn [objects]. rewrite lookup_snoc.
  cbn [mbind option_bind]. simpl lazyInit. cbv iota.
  erewrite on_this_eq; [|simpl; apply lookup_snoc|simpl; exact Hrun].
  cbn [mbind option_bind objects arrays]. rewrite insert_snoc.
  erewrite on_this_eq; [|simpl; apply lookup_snoc|].
  - simpl. by rewrite insert_snoc.
  - rewrite finishInit_eq. destruct Hl as [_ Hlu]. simpl in Hlu.
    cbn [with_lazyInit lazyUpdate]. rewrite <- Hlu. simpl.
    unfold with_lazyUpdate, with_lazyInit. simpl. by rewrite <- Hlu.
Qed.

(** X10. Construction from a record: a name reads as the value of the
    last property whose name has the same lower-case form and whose value
    is not an empty array, a string as a list of one; properties with an
    empty array are skipped; keys() lists the first spelling of every name
    kept; and an array given by the caller is stored itself, not a copy:
    getAll returns that very array. *)
Theorem record_construction σ rec nm :
  record_ok (arrays σ) rec →
  let '(h, σ1) := new_HttpHeaders (Some (IRecord rec)) σ in
  let e := record_entry (arrays σ) rec (toLowerCase nm) in
  read_has h nm σ1 = Some (match e with Some _ => true | None => false end) ∧
  read_getAll h nm σ1 = Some (record_values (arrays σ) rec (toLowerCase nm)) ∧
  read_get h nm σ1 = Some (l ← record_values (arrays σ) rec (toLowerCase nm); head l) ∧
  read_keys h σ1 = Some (first_seen [] (record_names (arrays σ) rec)) ∧
  (∀ r, e = Some (VArr r) → ∃ σ2, getAll h nm σ1 = Some (Some r, σ2)).
Proof.
  intros Hrec. destruct (new_record_init σ rec Hrec) as (h & A & Hp & Hinit).
  unfold new_HttpHeaders in *. cbn [snd] in Hinit.
  set (σ1 := mkHeap (arrays σ) (objects σ ++ [construct (Some (IRecord rec))])) in *.
  assert (objects (mkHeap A (objects σ ++ [h])) !! length (objects σ) = Some h) as Hh
    by apply lookup_snoc.
  destruct Hp as (m & Hm & Hok & Hvals & Hnames & _). simpl in Hm, Hok, Hvals, Hnames.
  cbv zeta. unfold record_values, read_has, read_get, read_getAll, read_keys.
  rewrite (has_read _ nm _ _ _ _ Hinit Hh Hm), (get_read _ nm _ _ _ _ Hinit Hh Hm),
    (getAll_read _ nm _ _ _ _ Hinit Hh Hm), (keys_read _ _ _ _ Hinit Hh).
  specialize (Hvals (toLowerCase nm)). unfold JsMap.has.
  destruct (record_entry (arrays σ) rec (toLowerCase nm)) as [v|].
  - destruct Hvals as (r & Hg & Hr & Hal). rewrite Hg. simpl. simpl in Hr. rewrite Hr.
    destruct (maps_ok_get _ _ _ _ _ Hok Hg) as (l & Hl & Hlne). simpl in Hl.
    rewrite Hr in Hl. rewrite Hl. simpl. rewrite Hnames.
    repeat (split; [done|]). intros r' [= ->]. rewrite (Hal r' eq_refl). eauto.
  - rewrite Hvals. simpl. rewrite Hnames. repeat (split; [done|]). done.
Qed.

(** X10 at the record {A: ["1"], B: [], a: ["2", "3"], C: "x"} read under
    "A". *)
Lemma record_construction_witness :
  let σ := run [CArray ["1"]; CArray []; CArray ["2"; "3"]] empty_heap in
  let rec := [("A", VArr 0); ("B", VArr 1); ("a", VArr 2); ("C", VStr "x")] in
  record_ok (arrays σ) rec ∧
  let '(h, σ1) := new_HttpHeaders (Some (IRecord rec)) σ in
  let e := record_entry (arrays σ) rec (toLowerCase "A") in
  read_has h "A" σ1 = Some (match e with Some _ => true | None => false end) ∧
  read_getAll h "A" σ1 = Some (record_values (arrays σ) rec (toLowerCase "A")) ∧
  read_get h "A" σ1 = Some (l ← record_values (arrays σ) rec (toLowerCase "A"); head l) ∧
  read_keys h σ1 = Some (first_seen [] (record_names (arrays σ) rec)) ∧
  (∀ r, e = Some (VArr r) → ∃ σ2, getAll h "A" σ1 = Some (Some r, σ2)).
Proof.
  assert (record_ok
            (arrays (run [CArray ["1"]; CArray []; CArray ["2"; "3"]] empty_heap))
            [("A", VArr 0); ("B", VArr 1); ("a", VArr 2); ("C", VStr "x")]) as Hok.
  { vm_compute. repeat constructor. }
  split; [exact Hok|].
  exact (record_construction _ _ "A" Hok).
Defined.

Lemma trimEnd_CR s : trimEnd (String.append s (String CR "")) = trimEnd s.
Proof.
  induction s as [|c s IH]; [done|].
  rewrite append_cons. cbn [trimEnd]. by rewrite IH.
Qed.

Lemma trimStart_CR s :
  trimStart (String.append s (String CR "")) =
    match trimStart s with
    | EmptyString => EmptyString
    | t => String.append t (String CR "")
    end.
Proof.
  induction s as [|c s IH]; [done|].
  rewrite append_cons. cbn [trimStart]. destruct (is_space c); [done|].
  by rewrite append_cons.
Qed.

Lemma trim_CR s : trim (String.append s (String CR "")) = trim s.
Proof.
  unfold trim. rewrite trimStart_CR. destruct (trimStart s) as [|c t]; [done|].
  apply trimEnd_CR.
Qed.

Lemma spec_cut_CR line :
  spec_cut (String.append line (String CR "")) =
    match spec_cut line with
    | Some (a, b) => Some (a, String.append b (String CR ""))
    | None => None
    end.
Proof.
  induction line as [|c line IH]; [done|].
  rewrite append_cons. cbn [spec_cut]. destruct (Ascii.eqb c ":"); [done|].
  rewrite IH. by destruct (spec_cut line) as [[a b]|].
Qed.

Lemma spec_line_CR line :
  spec_line (String.append line (String CR "")) = spec_line line.
Proof.
  unfold spec_line. rewrite spec_cut_CR. destruct (spec_cut line) as [[a b]|]; [|done].
  by rewrite trim_CR.
Qed.

Lemma split_crlf raw :
  Forall2 (λ a b, a = b ∨ a = String.append b (String CR ""))
    (split (crlf raw) LF) (split raw LF).
Proof.
  induction raw as [|c raw IH]; [by repeat constructor|].
  cbn [crlf split]. destruct (Ascii.eqb c LF) eqn:E.
  - cbn [split]. change (Ascii.eqb CR LF) with false. cbv iota.
    rewrite Ascii.eqb_refl. constructor; [by right|done].
  - cbn [split]. rewrite E.
    destruct IH as [|l l' ls ls' Hl Hls]; [by repeat constructor|].
    constructor; [|done]. destruct Hl as [->| ->]; [by left|right].
    by rewrite append_cons.
Qed.

Lemma spec_entries_crlf raw : spec_entries (crlf raw) = spec_entries raw.
Proof.
  unfold spec_entries. pose proof (split_crlf raw) as H.
  induction H as [|a b la lb Hab _ IH]; [done|].
  cbn [omap list_omap]. rewrite IH. destruct Hab as [->| ->]; [done|].
  by rewrite spec_line_CR.
Qed.

(** X11. Line ends: a raw header block whose lines end in CR LF gives a
    collection that reads as the one of the same block with lines ending
    in LF; the CR is not part of any value. *)
Theorem crlf_line_ends σ raw nm :
  let '(h, σ1) := new_HttpHeaders (Some (IString raw)) σ in
  let '(h', σ1') := new_HttpHeaders (Some (IString (crlf raw))) σ in
  read_has h' nm σ1' = read_has h nm σ1 ∧
  read_get h' nm σ1' = read_get h nm σ1 ∧
  read_getAll h' nm σ1' = read_getAll h nm σ1 ∧
  read_keys h' σ1' = read_keys h σ1.
Proof.
  pose proof (new_string_reads σ raw nm) as H1.
  pose proof (new_string_reads σ (crlf raw) nm) as H2.
  unfold new_HttpHeaders in *. rewrite spec_entries_crlf in H2.
  destruct H1 as (-> & -> & -> & ->). destruct H2 as (-> & -> & -> & ->). done.
Qed.

(** ** The handler chain *)

Lemma unchain_reduceRight {Backend Interceptor : Type} (b : Backend)
  (l : list Interceptor) :
  unchain (reduceRight HttpInterceptorHandler l (HBackend b)) = (l, b).
Proof.
  unfold reduceRight. induction l as [|i l IH]; [done|].
  simpl. rewrite fold_left_app. simpl. by rewrite IH.
Qed.

(** X12. interceptingHandler: the chain runs the interceptors in the
    order of the array, the first one outermost, and ends in the backend
    given; with null, with no second argument and with an empty array the
    result is the backend itself. *)
Theorem chain_in_order {Backend Interceptor : Type} (b : Backend) :
  (∀ l : list Interceptor, unchain (interceptingHandler b (IList l)) = (l, b)) ∧
  interceptingHandler b (@INull Interceptor) = HBackend b ∧
  interceptingHandler b (@IOmitted Interceptor) = HBackend b ∧
  interceptingHandler b (@IList Interceptor []) = HBackend b.
Proof.
  split; [|done]. intros l. apply unchain_reduceRight.
Qed.

(** X13. HttpInterceptingHandler.handle builds its chain once: every
    call goes, with its own request, to the chain made of the interceptors
    that were provided at the first call, whatever is provided later. *)
Theorem chain_built_once {Backend Interceptor Request : Type} (b : Backend)
  (first : list Interceptor) (req : Request)
  (later : list (list Interceptor * Request)) :
  ∃ c, unchain c = (first, b) ∧
    handle_all ((first, req) :: later) (mkHttpInterceptingHandler None b) =
      map (λ call, (c, call.2)) ((first, req) :: later).
Proof.
  exists (reduceRight HttpInterceptorHandler first (HBackend b)).
  split; [apply unchain_reduceRight|].
  simpl. f_equal.
  set (c := reduceRight _ _ _).
  induction later as [|[p r] later IH]; [done|].
  simpl. by rewrite IH.
Qed.

(** ** set as delete followed by append *)





